(** * The Simit IR core ([src/ir.h]): handles, nodes, [Func] and friends

    A shallow embedding of the inline code of [ir.h].  Nodes live in a store
    indexed by addresses; a handle ([Expr], [Stmt], [Func]) is a possibly
    null address, the way [util::IntrusivePtr] holds a possibly null
    pointer.  Code that can fail runs in the [outcome] monad, which keeps a
    failed [iassert] apart from undefined behaviour such as reading through
    a null pointer. *)

From Stdlib Require Import ZArith Lia Bool.
From stdpp Require Import base option list strings gmap fin_maps.

Open Scope Z_scope.

(** ** Outcomes of running IR code *)

Inductive outcome (A : Type) : Type :=
| Done (a : A)
| InvariantFailure (msg : string)
| UndefinedBehaviour.

Arguments Done {A} a.
Arguments InvariantFailure {A} msg.
Arguments UndefinedBehaviour {A}.

#[global] Instance outcome_ret : MRet outcome := fun A a => Done a.

#[global] Instance outcome_bind : MBind outcome := fun A B k m =>
  match m with
  | Done a => k a
  | InvariantFailure msg => InvariantFailure msg
  | UndefinedBehaviour => UndefinedBehaviour
  end.

(** Modelled from the spec: the [iassert] macro comes from a header that is
    not part of [ir.h].  The spec calls it an invariant check that is fatal,
    not recoverable: the computation stops with the message. *)
Definition iassert (c : bool) (msg : string) : outcome unit :=
  if c then Done tt else InvariantFailure msg.

Definition failed_invariant {A : Type} (o : outcome A) : bool :=
  match o with InvariantFailure _ => true | _ => false end.

Definition succeeded {A : Type} (o : outcome A) : bool :=
  match o with Done _ => true | _ => false end.

(** ** Collaborator value types

    [types.h], [var.h], [indexvar.h], [storage.h] and [tensor_index.h] are
    included by [ir.h] but are not part of it. *)

(** Modelled from the spec: an index set is the concrete domain, with a
    size, that an index variable ranges over.  The default-constructed index
    set is the empty one. *)
Record IndexSet : Type := mkIndexSet { getSize : nat }.

Definition IndexSet_default : IndexSet := mkIndexSet 0.

(** Modelled from the spec: an index domain is the cardinality source of a
    [Kernel] loop. *)
Definition IndexDomain : Type := list IndexSet.

(** Modelled from the spec: identity-or-sum-style combine operator. *)
Inductive ReductionOperator : Type := Undefined | Sum.

(** Modelled from the spec: a named dimension with the index set it ranges
    over; a reduction variable carries the operator it is reduced with. *)
Record IndexVar : Type := mkIndexVar {
  IndexVar_name : string;
  getDomain : IndexSet;
  getOperator : ReductionOperator
}.

Inductive ComponentType : Type := Int | Float | Boolean.

(** Modelled from the spec: a type descriptor for tensors (scalars are the
    tensors of order zero), elements, sets and tuples.  Only what [ir.h]
    and its type-compute functions look at is kept. *)
Inductive Type_ : Type :=
| UndefinedType
| TensorType (componentType : ComponentType) (dimensions : list IndexSet)
| ElementType (name : string)
| SetType (elementName : string)
| TupleType (elementName : string) (size : nat).

Definition isTensor (t : Type_) : bool :=
  match t with TensorType _ _ => true | _ => false end.

Definition order (t : Type_) : nat :=
  match t with TensorType _ dims => length dims | _ => 0%nat end.

Definition componentTypeOf (t : Type_) : option ComponentType :=
  match t with TensorType c _ => Some c | _ => None end.

Definition dimensionsOf (t : Type_) : list IndexSet :=
  match t with TensorType _ dims => dims | _ => [] end.

(** Modelled from the spec: a variable is a name with a type. *)
Record Var : Type := mkVar { Var_name : string; Var_type : Type_ }.

(** Modelled from the spec: the adjacency or coordinate structure behind a
    [TensorIndexRead]; only its name is kept. *)
Record TensorIndex : Type := mkTensorIndex { TensorIndex_name : string }.

(** Modelled from the spec: a storage descriptor gives each local variable
    an allocation kind; the kinds are kept as uninterpreted codes. *)
Record Storage : Type := mkStorage { storageOf : list (Var * nat) }.

Definition Storage_default : Storage := mkStorage [].

(** ** Handles

    [IRHandle] is [util::IntrusivePtr<const IRNode>]: a pointer that is
    null for an undefined handle. *)

Definition addr : Type := positive.

Record Expr : Type := mkExpr { Expr_ptr : option addr }.
Record Stmt : Type := mkStmt { Stmt_ptr : option addr }.
Record Func : Type := mkFunc { Func_ptr : option addr }.

#[global] Instance Func_eq_dec : EqDecision Func.
Proof. solve_decision. Defined.

(** The default constructors [Expr()], [Stmt()] and [Func()]. *)
Definition Expr_undefined : Expr := mkExpr None.
Definition Stmt_undefined : Stmt := mkStmt None.
Definition Func_undefined : Func := mkFunc None.

(** Modelled from the spec: [IntrusivePtr::defined()] is in
    [intrusive_ptr.h]; a handle is defined when it holds a node. *)
Definition Expr_defined (e : Expr) : bool :=
  match Expr_ptr e with Some _ => true | None => false end.
Definition Stmt_defined (s : Stmt) : bool :=
  match Stmt_ptr s with Some _ => true | None => false end.
Definition Func_defined (f : Func) : bool :=
  match Func_ptr f with Some _ => true | None => false end.

(** [enum class CompoundOperator { None, Add }] *)
Module CompoundOperator.
Inductive t : Type := None | Add.
End CompoundOperator.

(** ** The node catalog

    Each struct deriving [ExprNode<T>] or [StmtNode<T>] is a constructor
    carrying the struct's fields; children are handles. *)

Module IndexRead.
Inductive Kind : Type := Endpoints | NeighborsStart | Neighbors.
End IndexRead.

Module TensorIndexRead.
Inductive Type_ : Type := Coordinates | Sinks.
End TensorIndexRead.

Inductive ExprNode : Type :=
| Literal (data : list Byte.byte) (size : nat)
| VarExpr (var : Var)
| Load (buffer index : Expr)
| FieldRead (elementOrSet : Expr) (fieldName : string)
| Call (func : Func) (actuals : list Expr)
| Length (indexSet : IndexSet)
| IndexRead (edgeSet : Expr) (kind : IndexRead.Kind)
| TensorIndexRead (tensorIndex : TensorIndex) (loc : Expr)
    (readType : TensorIndexRead.Type_)
| Neg (a : Expr)
| Add (a b : Expr)
| Sub (a b : Expr)
| Mul (a b : Expr)
| Div (a b : Expr)
| Not (a : Expr)
| Eq (a b : Expr)
| Ne (a b : Expr)
| Gt (a b : Expr)
| Lt (a b : Expr)
| Ge (a b : Expr)
| Le (a b : Expr)
| And (a b : Expr)
| Or (a b : Expr)
| Xor (a b : Expr)
| TupleRead (tuple index : Expr)
| TensorRead (tensor : Expr) (indices : list Expr)
| IndexedTensor (tensor : Expr) (indexVars : list IndexVar)
| IndexExpr (resultVars : list IndexVar) (value : Expr).

(** *** [ForDomain] *)

Module ForDomain.

Module Kind.
Inductive t : Type :=
| IndexSet | Endpoints | Edges | Neighbors | NeighborsOf | Diagonal.

#[global] Instance eq_dec : EqDecision t.
Proof. solve_decision. Defined.
End Kind.

Record t : Type := mk {
  kind : Kind.t;
  indexSet : IndexSet;
  set : Expr;
  var : Var
}.

End ForDomain.

Inductive StmtNode : Type :=
| VarDecl (var : Var)
| AssignStmt (var : Var) (value : Expr) (cop : CompoundOperator.t)
| Store (buffer index value : Expr) (cop : CompoundOperator.t)
| FieldWrite (elementOrSet : Expr) (fieldName : string) (value : Expr)
    (cop : CompoundOperator.t)
| CallStmt (results : list Var) (callee : Func) (actuals : list Expr)
| Block (first rest : Stmt) (scoped : bool)
| IfThenElse (condition : Expr) (thenBody elseBody : Stmt)
| ForRange (var : Var) (start end_ : Expr) (body : Stmt)
| For (var : Var) (domain : ForDomain.t) (body : Stmt)
| While (condition : Expr) (body : Stmt)
| Kernel (var : Var) (domain : IndexDomain) (body : Stmt)
| Print (expr : Expr)
| Comment (comment : string) (commentedStmt : Stmt)
    (footerSpace headerSpace : bool)
| Pass
| TensorWrite (tensor : Expr) (indices : list Expr) (value : Expr)
    (cop : CompoundOperator.t)
| Map (vars : list Var) (function : Func) (target neighbors : Expr)
    (partial_actuals : list Expr) (reduction : ReductionOperator).

(** The concrete node classes: what the template argument of [isa<E>] and
    [to<E>] ranges over. *)
Module NodeKind.
Inductive t : Type :=
| Literal | VarExpr | Load | FieldRead | Call | Length | IndexRead
| TensorIndexRead | Neg | Add | Sub | Mul | Div | Not | Eq | Ne | Gt | Lt
| Ge | Le | And | Or | Xor | TupleRead | TensorRead | IndexedTensor
| IndexExpr
| VarDecl | AssignStmt | Store | FieldWrite | CallStmt | Block | IfThenElse
| ForRange | For | While | Kernel | Print | Comment | Pass | TensorWrite
| Map.

#[global] Instance eq_dec : EqDecision t.
Proof. solve_decision. Defined.
End NodeKind.

(** The dynamic class of a node: the struct it was allocated as. *)
Definition ExprNode_kind (n : ExprNode) : NodeKind.t :=
  match n with
  | Literal _ _ => NodeKind.Literal
  | VarExpr _ => NodeKind.VarExpr
  | Load _ _ => NodeKind.Load
  | FieldRead _ _ => NodeKind.FieldRead
  | Call _ _ => NodeKind.Call
  | Length _ => NodeKind.Length
  | IndexRead _ _ => NodeKind.IndexRead
  | TensorIndexRead _ _ _ => NodeKind.TensorIndexRead
  | Neg _ => NodeKind.Neg
  | Add _ _ => NodeKind.Add
  | Sub _ _ => NodeKind.Sub
  | Mul _ _ => NodeKind.Mul
  | Div _ _ => NodeKind.Div
  | Not _ => NodeKind.Not
  | Eq _ _ => NodeKind.Eq
  | Ne _ _ => NodeKind.Ne
  | Gt _ _ => NodeKind.Gt
  | Lt _ _ => NodeKind.Lt
  | Ge _ _ => NodeKind.Ge
  | Le _ _ => NodeKind.Le
  | And _ _ => NodeKind.And
  | Or _ _ => NodeKind.Or
  | Xor _ _ => NodeKind.Xor
  | TupleRead _ _ => NodeKind.TupleRead
  | TensorRead _ _ => NodeKind.TensorRead
  | IndexedTensor _ _ => NodeKind.IndexedTensor
  | IndexExpr _ _ => NodeKind.IndexExpr
  end.

Definition StmtNode_kind (n : StmtNode) : NodeKind.t :=
  match n with
  | VarDecl _ => NodeKind.VarDecl
  | AssignStmt _ _ _ => NodeKind.AssignStmt
  | Store _ _ _ _ => NodeKind.Store
  | FieldWrite _ _ _ _ => NodeKind.FieldWrite
  | CallStmt _ _ _ => NodeKind.CallStmt
  | Block _ _ _ => NodeKind.Block
  | IfThenElse _ _ _ => NodeKind.IfThenElse
  | ForRange _ _ _ _ => NodeKind.ForRange
  | For _ _ _ => NodeKind.For
  | While _ _ => NodeKind.While
  | Kernel _ _ _ => NodeKind.Kernel
  | Print _ => NodeKind.Print
  | Comment _ _ _ _ => NodeKind.Comment
  | Pass => NodeKind.Pass
  | TensorWrite _ _ _ _ => NodeKind.TensorWrite
  | Map _ _ _ _ _ _ => NodeKind.Map
  end.

(** *** [IRNode], [ExprNodeBase], [StmtNodeBase]

    An [IRNode] holds the reference count; an [ExprNodeBase] adds the
    [type] field; the concrete struct adds its own fields. *)

Inductive NodeBase : Type :=
| ExprNodeBase (type : Type_) (node : ExprNode)
| StmtNodeBase (node : StmtNode).

Record IRNode : Type := mkIRNode {
  IRNode_ref : Z;
  base : NodeBase
}.

Definition IRNode_kind (n : IRNode) : NodeKind.t :=
  match base n with
  | ExprNodeBase _ e => ExprNode_kind e
  | StmtNodeBase s => StmtNode_kind s
  end.

(** The store of IR nodes: the nodes that have been allocated and not yet
    deleted, by address. *)
Abbreviation heap := (gmap addr IRNode).

(** ** Reference counting

    [IRNode] and [FuncContent] each carry [mutable long ref = 0] and a pair
    of friends [aquire] and [release]; the two pairs have the same body.
    [long] is taken to be 64 bits wide; overflowing it is undefined
    behaviour. *)

Definition LONG_MAX : Z := 2 ^ 63 - 1.
Definition LONG_MIN : Z := - 2 ^ 63.

Class Managed (T : Type) : Type := {
  ref : T -> Z;
  set_ref : Z -> T -> T;
  ref_set_ref : forall z t, ref (set_ref z t) = z
}.

(** [{++node->ref;}] *)
Definition aquire {T : Type} `{Managed T} (node : T) : outcome T :=
  if decide (ref node < LONG_MAX)
  then Done (set_ref (ref node + 1) node)
  else UndefinedBehaviour.

(** [{if (--node->ref == 0) delete node;}]: the result is [None] once
    the node has been deleted. *)
Definition release {T : Type} `{Managed T} (node : T) : outcome (option T) :=
  if decide (LONG_MIN < ref node)
  then
    let node' := set_ref (ref node - 1) node in
    if decide (ref node' = 0) then Done None else Done (Some node')
  else UndefinedBehaviour.

#[global] Instance IRNode_managed : Managed IRNode := {|
  ref := IRNode_ref;
  set_ref := fun z n => mkIRNode z (base n);
  ref_set_ref := fun _ _ => eq_refl
|}.

(** *** [Environment] and [FuncContent] *)

Record Environment : Type := mkEnvironment {
  globals : list (Var * Expr)
}.

(** [Environment() {}] *)
Definition Environment_default : Environment := mkEnvironment [].

Module FuncContent.
Record t : Type := mk {
  kind : Z;
  name : string;
  arguments : list Var;
  results : list Var;
  env : Environment;
  body : Stmt;
  storage : Storage;
  ref : Z
}.

Definition set_ref (z : Z) (c : t) : t :=
  mk (kind c) (name c) (arguments c) (results c) (env c) (body c)
     (storage c) z.
End FuncContent.

#[global] Instance FuncContent_managed : Managed FuncContent.t := {|
  ref := FuncContent.ref;
  set_ref := FuncContent.set_ref;
  ref_set_ref := fun _ _ => eq_refl
|}.

(** *** Handles on one node

    Modelled from the spec: [util::IntrusivePtr] is in [intrusive_ptr.h].
    Making a handle from a node pointer or copying a handle calls [aquire]
    on the node, destroying a handle calls [release] on it.  A [cell] is one
    node together with the number of live handles that point to it;
    [target] is [None] once the node has been deleted. *)

Record cell (T : Type) : Type := mkCell {
  target : option T;
  handles : nat
}.

Arguments mkCell {T} target handles.
Arguments target {T} c.
Arguments handles {T} c.

Inductive event : Type := Copy | Drop.

(** The first handle on a node that was just allocated. *)
Definition wrap {T : Type} `{Managed T} (node : T) : outcome (cell T) :=
  node' ← aquire node; Done (mkCell (Some node') 1).

(** One handle operation; going through a handle whose node has been
    deleted would be a use after free. *)
Definition step {T : Type} `{Managed T} (ev : event) (w : cell T)
  : outcome (cell T) :=
  match target w with
  | None => UndefinedBehaviour
  | Some node =>
      match ev with
      | Copy => node' ← aquire node;
                Done (mkCell (Some node') (S (handles w)))
      | Drop => t ← release node;
                Done (mkCell t (Nat.pred (handles w)))
      end
  end.

Fixpoint run {T : Type} `{Managed T} (evs : list event) (w : cell T)
  : outcome (cell T) :=
  match evs with
  | [] => Done w
  | ev :: evs' => w' ← step ev w; run evs' w'
  end.

(** A sequence of handle operations is disciplined when each operation is
    applied to a live handle (there is one to copy or to drop) and the
    number of live handles stays within [long]. *)
Fixpoint disciplined (h : nat) (evs : list event) : bool :=
  match evs with
  | [] => true
  | Copy :: evs' =>
      (0 <? h)%nat && (Z.of_nat h <? LONG_MAX) && disciplined (S h) evs'
  | Drop :: evs' => (0 <? h)%nat && disciplined (Nat.pred h) evs'
  end.

(** The reference count is the number of live handles, and the node is
    there exactly while there are handles. *)
Definition cell_inv {T : Type} `{Managed T} (w : cell T) : Prop :=
  match target w with
  | Some node => ref node = Z.of_nat (handles w) /\ (0 < handles w)%nat
  | None => handles w = 0%nat
  end.

(** The number of live handles after a sequence of operations. *)
Fixpoint live_after (h : nat) (evs : list event) : nat :=
  match evs with
  | [] => h
  | Copy :: evs' => live_after (S h) evs'
  | Drop :: evs' => live_after (Nat.pred h) evs'
  end.

(** ** [Expr] and [Stmt]: type query and downcasts *)

(** Reading a node through a pointer.  A null pointer, or one whose node
    has been deleted, cannot be read. *)
Definition deref (h : heap) (ptr : option addr) : outcome IRNode :=
  match ptr with
  | None => UndefinedBehaviour
  | Some p =>
      match h !! p with
      | Some node => Done node
      | None => UndefinedBehaviour
      end
  end.

(** [Type type() const {return static_cast<const ExprNodeBase*>(ptr)->type;}] *)
Definition Expr_type (h : heap) (e : Expr) : outcome Type_ :=
  node ← deref h (Expr_ptr e);
  match base node with
  | ExprNodeBase type _ => Done type
  | StmtNodeBase _ => UndefinedBehaviour
  end.

(** [dynamic_cast<const E*>(ptr)]: the null pointer is cast to the null
    pointer without being read; for another pointer the dynamic class of
    the node is looked up.  The concrete node structs do not derive from
    one another, so the cast succeeds on the node's own class only. *)
Definition dynamic_cast (E : NodeKind.t) (h : heap) (ptr : option addr)
  : outcome (option addr) :=
  match ptr with
  | None => Done None
  | Some p =>
      node ← deref h (Some p);
      Done (if decide (IRNode_kind node = E) then Some p else None)
  end.

Definition isnull (ptr : option addr) : bool :=
  match ptr with None => true | Some _ => false end.

(** [return e.defined() && dynamic_cast<const E*>(e.ptr) != nullptr;] *)
Definition Expr_isa (E : NodeKind.t) (h : heap) (e : Expr) : outcome bool :=
  if Expr_defined e
  then q ← dynamic_cast E h (Expr_ptr e); Done (negb (isnull q))
  else Done false.

(** [iassert(isa<E>(e)) << "Wrong Expr type";
     return static_cast<const E*>(e.ptr);] *)
Definition Expr_to (E : NodeKind.t) (h : heap) (e : Expr)
  : outcome (option addr) :=
  ok ← Expr_isa E h e;
  _ ← iassert ok "Wrong Expr type";
  Done (Expr_ptr e).

(** [return s.defined() && dynamic_cast<const S*>(s.ptr) != nullptr;] *)
Definition Stmt_isa (S : NodeKind.t) (h : heap) (s : Stmt) : outcome bool :=
  if Stmt_defined s
  then q ← dynamic_cast S h (Stmt_ptr s); Done (negb (isnull q))
  else Done false.

(** [iassert(isa<S>(s)) << "Wrong Expr type " << s;
     return static_cast<const S*>(s.ptr);] *)
Definition Stmt_to (S : NodeKind.t) (h : heap) (s : Stmt)
  : outcome (option addr) :=
  ok ← Stmt_isa S h s;
  _ ← iassert ok "Wrong Expr type ";
  Done (Stmt_ptr s).

(** ** [ForDomain] constructors *)

(** Modelled from the spec: the default-constructed [Var], from [var.h]. *)
Definition Var_default : Var := mkVar EmptyString UndefinedType.

(** [ForDomain() {}]: [kind] is left uninitialised; the value it happens to
    hold is the argument. *)
Definition ForDomain_default (kind : ForDomain.Kind.t) : outcome ForDomain.t :=
  Done (ForDomain.mk kind IndexSet_default Expr_undefined Var_default).

(** [ForDomain(class IndexSet indexSet) : kind(IndexSet), indexSet(indexSet) {}] *)
Definition ForDomain_ofIndexSet (indexSet : IndexSet) : outcome ForDomain.t :=
  Done (ForDomain.mk ForDomain.Kind.IndexSet indexSet Expr_undefined
          Var_default).

(** [ForDomain(Expr set, Var var, Kind kind) : kind(kind), set(set), var(var)
     { iassert(kind != IndexSet); }] *)
Definition ForDomain_ofSet (set : Expr) (var : Var) (kind : ForDomain.Kind.t)
  : outcome ForDomain.t :=
  _ ← iassert (bool_decide (kind ≠ ForDomain.Kind.IndexSet)) EmptyString;
  Done (ForDomain.mk kind IndexSet_default set var).

(** [ForDomain(Expr set, Var var, Kind kind, class IndexSet indexSet)
     : kind(kind), indexSet(indexSet), set(set), var(var)
     { iassert(kind == NeighborsOf); }] *)
Definition ForDomain_ofNeighbors (set : Expr) (var : Var)
    (kind : ForDomain.Kind.t) (indexSet : IndexSet) : outcome ForDomain.t :=
  _ ← iassert (bool_decide (kind = ForDomain.Kind.NeighborsOf)) EmptyString;
  Done (ForDomain.mk kind indexSet set var).

(** The four ways a [ForDomain] comes into being through a constructor. *)
Inductive constructed : ForDomain.t -> Prop :=
| constructed_default kind d :
    ForDomain_default kind = Done d -> constructed d
| constructed_ofIndexSet indexSet d :
    ForDomain_ofIndexSet indexSet = Done d -> constructed d
| constructed_ofSet set var kind d :
    ForDomain_ofSet set var kind = Done d -> constructed d
| constructed_ofNeighbors set var kind indexSet d :
    ForDomain_ofNeighbors set var kind indexSet = Done d -> constructed d.

(** ** [Func] *)

Module Func.
Module Kind.
Inductive t : Type := Internal | External | Intrinsic.

(** The enumerators as the [int] that [FuncContent::kind] stores. *)
Definition to_int (k : t) : Z :=
  match k with Internal => 0 | External => 1 | Intrinsic => 2 end.

(** [static_cast<Kind>(int)]; an [int] that is no enumerator has no
    counterpart here. *)
Definition of_int (z : Z) : option t :=
  if decide (z = 0) then Some Internal
  else if decide (z = 1) then Some External
  else if decide (z = 2) then Some Intrinsic
  else None.
End Kind.
End Func.

(** The store of function contents. *)
Abbreviation funcs := (gmap addr FuncContent.t).

Definition Func_deref (fs : funcs) (f : Func) : outcome FuncContent.t :=
  match Func_ptr f with
  | None => UndefinedBehaviour
  | Some p =>
      match fs !! p with
      | Some c => Done c
      | None => UndefinedBehaviour
      end
  end.

(** [std::string getName() const {return ptr->name;}] *)
Definition getName (fs : funcs) (f : Func) : outcome string :=
  c ← Func_deref fs f; Done (FuncContent.name c).

(** [getArguments() const {return ptr->arguments;}] *)
Definition getArguments (fs : funcs) (f : Func) : outcome (list Var) :=
  c ← Func_deref fs f; Done (FuncContent.arguments c).

(** [getResults() const {return ptr->results;}] *)
Definition getResults (fs : funcs) (f : Func) : outcome (list Var) :=
  c ← Func_deref fs f; Done (FuncContent.results c).

(** [Stmt getBody() const {return ptr->body;}] *)
Definition getBody (fs : funcs) (f : Func) : outcome Stmt :=
  c ← Func_deref fs f; Done (FuncContent.body c).

(** [Func::Kind getKind() const {return static_cast<Kind>(ptr->kind);}] *)
Definition getKind (fs : funcs) (f : Func) : outcome Func.Kind.t :=
  c ← Func_deref fs f;
  match Func.Kind.of_int (FuncContent.kind c) with
  | Some k => Done k
  | None => UndefinedBehaviour
  end.

(** [getEnvironment() const {return ptr->env;}] *)
Definition getEnvironment (fs : funcs) (f : Func) : outcome Environment :=
  c ← Func_deref fs f; Done (FuncContent.env c).

(** [getStorage() const {return ptr->storage;}] *)
Definition getStorage (fs : funcs) (f : Func) : outcome Storage :=
  c ← Func_deref fs f; Done (FuncContent.storage c).

Definition FuncContent_set_env (env : Environment) (c : FuncContent.t)
  : FuncContent.t :=
  FuncContent.mk (FuncContent.kind c) (FuncContent.name c)
    (FuncContent.arguments c) (FuncContent.results c) env
    (FuncContent.body c) (FuncContent.storage c) (FuncContent.ref c).

Definition FuncContent_set_storage (storage : Storage) (c : FuncContent.t)
  : FuncContent.t :=
  FuncContent.mk (FuncContent.kind c) (FuncContent.name c)
    (FuncContent.arguments c) (FuncContent.results c) (FuncContent.env c)
    (FuncContent.body c) storage (FuncContent.ref c).

(** [void setEnvironment(const Environment &env) {ptr->env = env;}]: the
    write goes to the shared content, so every handle on it sees it. *)
Definition setEnvironment (fs : funcs) (f : Func) (env : Environment)
  : outcome funcs :=
  c ← Func_deref fs f;
  match Func_ptr f with
  | Some p => Done (<[p := FuncContent_set_env env c]> fs)
  | None => UndefinedBehaviour
  end.

(** [void setStorage(const Storage &storage) {ptr->storage = storage;}] *)
Definition setStorage (fs : funcs) (f : Func) (storage : Storage)
  : outcome funcs :=
  c ← Func_deref fs f;
  match Func_ptr f with
  | Some p => Done (<[p := FuncContent_set_storage storage c]> fs)
  | None => UndefinedBehaviour
  end.

(** The operations on a [Func] that write to the store of contents.
    Modelled from the spec: copying a handle ([intrusive_ptr.h]) calls
    [aquire] on the content it points to; copying an undefined handle does
    nothing. *)
Inductive FuncOp : Type :=
| OpSetEnvironment (f : Func) (env : Environment)
| OpSetStorage (f : Func) (storage : Storage)
| OpCopy (f : Func).

Definition Func_copy (fs : funcs) (f : Func) : outcome funcs :=
  match Func_ptr f with
  | None => Done fs
  | Some p =>
      c ← Func_deref fs f;
      c' ← aquire c;
      Done (<[p := c']> fs)
  end.

Definition Func_exec (op : FuncOp) (fs : funcs) : outcome funcs :=
  match op with
  | OpSetEnvironment f env => setEnvironment fs f env
  | OpSetStorage f storage => setStorage fs f storage
  | OpCopy f => Func_copy fs f
  end.

Fixpoint Func_run (ops : list FuncOp) (fs : funcs) : outcome funcs :=
  match ops with
  | [] => Done fs
  | op :: ops' => fs' ← Func_exec op fs; Func_run ops' fs'
  end.

(** The fields of a content that the spec calls its prototype and body. *)
Definition prototype (c : FuncContent.t)
  : Z * string * list Var * list Var * Stmt :=
  (FuncContent.kind c, FuncContent.name c, FuncContent.arguments c,
   FuncContent.results c, FuncContent.body c).

Definition op_handle (op : FuncOp) : Func :=
  match op with
  | OpSetEnvironment f _ | OpSetStorage f _ | OpCopy f => f
  end.

(** A handle is live in a store when it is defined and its content has
    not been deleted. *)
Definition Func_live (fs : funcs) (f : Func) : Prop :=
  exists p, Func_ptr f = Some p /\ is_Some (fs !! p).

(** What the getters of the fields fixed at construction return through
    the handle [g] is the same in the two stores. *)
Definition same_prototype (fs fs' : funcs) (g : Func) : Prop :=
  getName fs' g = getName fs g /\
  getArguments fs' g = getArguments fs g /\
  getResults fs' g = getResults fs g /\
  getBody fs' g = getBody fs g /\
  getKind fs' g = getKind fs g.

(** Every reference count in the store is at most [b]. *)
Definition refs_below (b : Z) (fs : funcs) : Prop :=
  forall q c, fs !! q = Some c -> FuncContent.ref c <= b.

(** The stores agree, address by address, on the fields fixed at
    construction. *)
Definition proto_eq (fs fs' : funcs) : Prop :=
  forall q, prototype <$> (fs' !! q) = prototype <$> (fs !! q).

(** ** Type compute functions

    [ir.h] declares [getBlockType] and [getIndexExprType]; their bodies
    are in a file that is not part of the sources. *)

(** Modelled from the spec: [getBlockType(tensor)] returns the per-block
    component type of a blocked tensor and the scalar component type
    otherwise.  The tensor types kept here are not blocked. *)
Definition getBlockType (h : heap) (tensor : Expr) : outcome Type_ :=
  t ← Expr_type h tensor;
  match t with
  | TensorType c _ => Done (TensorType c [])
  | _ => InvariantFailure "not a tensor"
  end.

(** Modelled from the spec: [getIndexExprType(resultVars, value)] is a
    tensor whose order equals [resultVars.size()] and whose per-dimension
    size is the index set size of the corresponding result variable, in
    order; the component type is the component type of [value].  A [value]
    that has no component type is malformed IR, an invariant failure. *)
Definition getIndexExprType (h : heap) (lhsIndexVars : list IndexVar)
    (expr : Expr) : outcome Type_ :=
  t ← Expr_type h expr;
  match componentTypeOf t with
  | Some c => Done (TensorType c (map getDomain lhsIndexVars))
  | None => InvariantFailure "value has no component type"
  end.

#[global] Instance IndexSet_eq_dec : EqDecision IndexSet.
Proof. solve_decision. Defined.

#[global] Instance ReductionOperator_eq_dec : EqDecision ReductionOperator.
Proof. solve_decision. Defined.

#[global] Instance IndexVar_eq_dec : EqDecision IndexVar.
Proof. solve_decision. Defined.

(** Modelled from the spec: [IndexExpr::domain()] scans the value subtree
    for [IndexedTensor] occurrences and unions their index-variable lists.
    The scan follows child handles through the store; [fuel] bounds its
    depth. *)
Fixpoint indexVarsOf (fuel : nat) (h : heap) (e : Expr) : list IndexVar :=
  match fuel with
  | O => []
  | S fuel' =>
      let go := indexVarsOf fuel' h in
      let gos := fix gos (es : list Expr) : list IndexVar :=
        match es with
        | [] => []
        | e' :: es' => list_union (go e') (gos es')
        end in
      match deref h (Expr_ptr e) with
      | Done (mkIRNode _ (ExprNodeBase _ n)) =>
          match n with
          | IndexedTensor _ indexVars => indexVars
          | Literal _ _ | VarExpr _ | Length _ => []
          | FieldRead a _ | IndexRead a _ | TensorIndexRead _ a _
          | Neg a | Not a | IndexExpr _ a => go a
          | Load a b | Add a b | Sub a b | Mul a b | Div a b
          | Eq a b | Ne a b | Gt a b | Lt a b | Ge a b | Le a b
          | And a b | Or a b | Xor a b | TupleRead a b =>
              list_union (go a) (go b)
          | Call _ actuals => gos actuals
          | TensorRead tensor indices => list_union (go tensor) (gos indices)
          end
      | _ => []
      end
  end.

(** ** Node factories with an arity check *)

(** Modelled from the spec: [TensorRead::make] accepts either exactly one
    (pre-flattened) index or exactly n indices, where n is the order of
    the tensor; any other arity is an invariant violation.  The result is
    the node as allocated, before its first handle; it reads a block, so
    its type is the block type. *)
Definition TensorRead_make (h : heap) (tensor : Expr) (indices : list Expr)
  : outcome IRNode :=
  t ← Expr_type h tensor;
  _ ← iassert (isTensor t) "not a tensor";
  _ ← iassert (bool_decide (length indices = 1%nat)
               || bool_decide (length indices = order t))
              "wrong number of indices";
  type ← getBlockType h tensor;
  Done (mkIRNode 0 (ExprNodeBase type (TensorRead tensor indices))).

(** Modelled from the spec: [TensorWrite::make] has the same arity rule
    as [TensorRead::make]. *)
Definition TensorWrite_make (h : heap) (tensor : Expr) (indices : list Expr)
    (value : Expr) (cop : CompoundOperator.t) : outcome IRNode :=
  t ← Expr_type h tensor;
  _ ← iassert (isTensor t) "not a tensor";
  _ ← iassert (bool_decide (length indices = 1%nat)
               || bool_decide (length indices = order t))
              "wrong number of indices";
  Done (mkIRNode 0 (StmtNodeBase (TensorWrite tensor indices value cop))).

(** ** Operations on one expression node *)

(** Modelled from the spec: [Literal::cast] is a type-preserving re-cast of
    the stored representation of a literal.  How the bytes are re-cast is
    left open by the spec and is the argument [recast], given the stored
    type, the type asked for and the bytes. *)
Definition Literal_cast
    (recast : Type_ -> Type_ -> list Byte.byte -> list Byte.byte)
    (type : Type_) (node : IRNode) : outcome IRNode :=
  match base node with
  | ExprNodeBase stored (Literal data _) =>
      let data' := recast stored type data in
      Done (mkIRNode (IRNode_ref node)
              (ExprNodeBase stored (Literal data' (length data'))))
  | _ => UndefinedBehaviour
  end.

(** What can be done to a node once it is made: handles on it come and go,
    and a literal can be re-cast.  [type()], [isa], [to] and [accept] only
    read. *)
Inductive NodeOp : Type :=
| NAquire
| NRelease
| NCast (type : Type_).

Definition Node_exec
    (recast : Type_ -> Type_ -> list Byte.byte -> list Byte.byte)
    (op : NodeOp) (node : IRNode) : outcome (option IRNode) :=
  match op with
  | NAquire => node' ← aquire node; Done (Some node')
  | NRelease => release node
  | NCast type => node' ← Literal_cast recast type node; Done (Some node')
  end.

Fixpoint Node_run
    (recast : Type_ -> Type_ -> list Byte.byte -> list Byte.byte)
    (ops : list NodeOp) (node : option IRNode) : outcome (option IRNode) :=
  match ops with
  | [] => Done node
  | op :: ops' =>
      match node with
      | None => UndefinedBehaviour
      | Some n => node' ← Node_exec recast op n; Node_run recast ops' node'
      end
  end.

(** The type a node stores, if it is an expression node. *)
Definition stored_type (node : IRNode) : option Type_ :=
  match base node with
  | ExprNodeBase type _ => Some type
  | StmtNodeBase _ => None
  end.

(** ** A small store: the contraction of [A(i,k)] with [B(k,j)]

    The index variables [i], [j] and [k] range over index sets of sizes
    3, 4 and 5; [k] is a reduction variable.  Node 5 is [A(i,k) * B(k,j)],
    node 6 is [B(k,j) * A(i,k)]. *)
Module Contraction.
Definition i : IndexVar := mkIndexVar "i" (mkIndexSet 3) Undefined.
Definition j : IndexVar := mkIndexVar "j" (mkIndexSet 4) Undefined.
Definition k : IndexVar := mkIndexVar "k" (mkIndexSet 5) Sum.

Definition scalar : Type_ := TensorType Float [].
Definition A : Var := mkVar "A" (TensorType Float [mkIndexSet 3; mkIndexSet 5]).
Definition B : Var := mkVar "B" (TensorType Float [mkIndexSet 5; mkIndexSet 4]).

Definition at_ (p : positive) : Expr := mkExpr (Some p).

Definition store : heap :=
  <[1%positive := mkIRNode 1 (ExprNodeBase (Var_type A) (VarExpr A))]>
  (<[2%positive := mkIRNode 1 (ExprNodeBase (Var_type B) (VarExpr B))]>
  (<[3%positive := mkIRNode 2 (ExprNodeBase scalar
                                 (IndexedTensor (at_ 1) [i; k]))]>
  (<[4%positive := mkIRNode 2 (ExprNodeBase scalar
                                 (IndexedTensor (at_ 2) [k; j]))]>
  (<[5%positive := mkIRNode 1 (ExprNodeBase scalar (Mul (at_ 3) (at_ 4)))]>
  (<[6%positive := mkIRNode 1 (ExprNodeBase scalar (Mul (at_ 4) (at_ 3)))]>
   ∅))))).
End Contraction.

(** ** The [Intrinsics] registry

    [ir.h] declares seventeen static [Func] members and the static map
    [byName]; their initialisers are in a file that is not part of the
    sources. *)

(** Modelled from the spec: the constructor
    [Func(name, arguments, results, kind)] creates a function declaration:
    a new content with an undefined body, default environment and storage,
    held by the handle that is returned. *)
Definition Func_declare (fs : funcs) (name : string) (arguments : list Var)
    (results : list Var) (kind : Func.Kind.t) : outcome (Func * funcs) :=
  let p := fresh (dom fs) in
  let c := FuncContent.mk (Func.Kind.to_int kind) name arguments results
             Environment_default Stmt_undefined Storage_default 0 in
  c' ← aquire c;
  Done (mkFunc (Some p), <[p := c']> fs).

Module Intrinsics.

Record t : Type := mk {
  mod_ : Func;
  sin : Func;
  cos : Func;
  tan : Func;
  asin : Func;
  acos : Func;
  atan2 : Func;
  sqrt : Func;
  log : Func;
  exp : Func;
  pow : Func;
  norm : Func;
  dot : Func;
  det : Func;
  inv : Func;
  solve : Func;
  loc : Func;
  byName : gmap string Func
}.

(** The names the spec lists for the registry. *)
Definition names : list string :=
  ["mod"; "sin"; "cos"; "tan"; "asin"; "acos"; "atan2"; "sqrt"; "log";
   "exp"; "pow"; "norm"; "dot"; "det"; "inv"; "solve"; "loc"].

(** Putting a handle in the map copies it. *)
Fixpoint fill (entries : list (string * Func)) (fs : funcs)
  : outcome (gmap string Func * funcs) :=
  match entries with
  | [] => Done (∅, fs)
  | (key, f) :: entries' =>
      '(m, fs1) ← fill entries' fs;
      fs2 ← Func_copy fs1 f;
      Done (<[key := f]> m, fs2)
  end.

(** Modelled from the spec: the registry maps each name to its [Func]
    declaration of kind [Intrinsic].  The spec does not give the
    signatures; [signature] supplies the arguments and results of each. *)
Definition init (signature : string -> list Var * list Var)
  : outcome (t * funcs) :=
  let declare (name : string) (fs : funcs) :=
    Func_declare fs name (fst (signature name)) (snd (signature name))
      Func.Kind.Intrinsic in
  '(mod_, fs) ← declare "mod" ∅;
  '(sin, fs) ← declare "sin" fs;
  '(cos, fs) ← declare "cos" fs;
  '(tan, fs) ← declare "tan" fs;
  '(asin, fs) ← declare "asin" fs;
  '(acos, fs) ← declare "acos" fs;
  '(atan2, fs) ← declare "atan2" fs;
  '(sqrt, fs) ← declare "sqrt" fs;
  '(log, fs) ← declare "log" fs;
  '(exp, fs) ← declare "exp" fs;
  '(pow, fs) ← declare "pow" fs;
  '(norm, fs) ← declare "norm" fs;
  '(dot, fs) ← declare "dot" fs;
  '(det, fs) ← declare "det" fs;
  '(inv, fs) ← declare "inv" fs;
  '(solve, fs) ← declare "solve" fs;
  '(loc, fs) ← declare "loc" fs;
  '(byName, fs) ← fill
     [("mod", mod_); ("sin", sin); ("cos", cos); ("tan", tan);
      ("asin", asin); ("acos", acos); ("atan2", atan2); ("sqrt", sqrt);
      ("log", log); ("exp", exp); ("pow", pow); ("norm", norm);
      ("dot", dot); ("det", det); ("inv", inv); ("solve", solve);
      ("loc", loc)] fs;
  Done (mk mod_ sin cos tan asin acos atan2 sqrt log exp pow norm dot det
          inv solve loc byName, fs).

(** [byName[key]]: [std::map::operator[]] returns the mapped handle and
    inserts a default-constructed one when the key is missing. *)
Definition at_ (key : string) (m : gmap string Func)
  : Func * gmap string Func :=
  match m !! key with
  | Some f => (f, m)
  | None => (Func_undefined, <[key := Func_undefined]> m)
  end.

(** The registry answers for [key]: the lookup finds a defined handle and
    leaves the map alone, and the content behind the handle has kind
    [Intrinsic] and the name [key]. *)
Definition answers (fs : funcs) (m : gmap string Func) (key : string) : bool :=
  let '(f, m') := at_ key m in
  bool_decide (m' = m) && Func_defined f &&
  match getKind fs f with
  | Done Func.Kind.Intrinsic => true
  | _ => false
  end &&
  match getName fs f with
  | Done n => bool_decide (n = key)
  | _ => false
  end.

End Intrinsics.

(** ** Visitors and [accept]

    Modelled from the spec: [IRVisitorStrict] is declared in a header that
    is not part of [ir.h]; it has one [visit] callback for each node class,
    taking a pointer to the node, and one for [Func], taking a pointer to
    the handle.  A callback works on the visitor's own state. *)
Record IRVisitorStrict (St : Type) : Type := mkVisitor {
  visit : NodeKind.t -> addr -> St -> outcome St;
  visit_Func : Func -> St -> outcome St
}.

Arguments visit {St} v E p s : rename.
Arguments visit_Func {St} v f s : rename.

(** The template argument [T] that each node struct hands to its base
    class [ExprNode<T>] or [StmtNode<T>], struct by struct as declared:
    [struct Literal : public ExprNode<Literal>], and so on. *)
Definition base_argument (k : NodeKind.t) : NodeKind.t :=
  match k with
  | NodeKind.Literal => NodeKind.Literal
  | NodeKind.VarExpr => NodeKind.VarExpr
  | NodeKind.Load => NodeKind.Load
  | NodeKind.FieldRead => NodeKind.FieldRead
  | NodeKind.Call => NodeKind.Call
  | NodeKind.Length => NodeKind.Length
  | NodeKind.IndexRead => NodeKind.IndexRead
  | NodeKind.TensorIndexRead => NodeKind.TensorIndexRead
  | NodeKind.Neg => NodeKind.Neg
  | NodeKind.Add => NodeKind.Add
  | NodeKind.Sub => NodeKind.Sub
  | NodeKind.Mul => NodeKind.Mul
  | NodeKind.Div => NodeKind.Div
  | NodeKind.Not => NodeKind.Not
  | NodeKind.Eq => NodeKind.Eq
  | NodeKind.Ne => NodeKind.Ne
  | NodeKind.Gt => NodeKind.Gt
  | NodeKind.Lt => NodeKind.Lt
  | NodeKind.Ge => NodeKind.Ge
  | NodeKind.Le => NodeKind.Le
  | NodeKind.And => NodeKind.And
  | NodeKind.Or => NodeKind.Or
  | NodeKind.Xor => NodeKind.Xor
  | NodeKind.TupleRead => NodeKind.TupleRead
  | NodeKind.TensorRead => NodeKind.TensorRead
  | NodeKind.IndexedTensor => NodeKind.IndexedTensor
  | NodeKind.IndexExpr => NodeKind.IndexExpr
  | NodeKind.VarDecl => NodeKind.VarDecl
  | NodeKind.AssignStmt => NodeKind.AssignStmt
  | NodeKind.Store => NodeKind.Store
  | NodeKind.FieldWrite => NodeKind.FieldWrite
  | NodeKind.CallStmt => NodeKind.CallStmt
  | NodeKind.Block => NodeKind.Block
  | NodeKind.IfThenElse => NodeKind.IfThenElse
  | NodeKind.ForRange => NodeKind.ForRange
  | NodeKind.For => NodeKind.For
  | NodeKind.While => NodeKind.While
  | NodeKind.Kernel => NodeKind.Kernel
  | NodeKind.Print => NodeKind.Print
  | NodeKind.Comment => NodeKind.Comment
  | NodeKind.Pass => NodeKind.Pass
  | NodeKind.TensorWrite => NodeKind.TensorWrite
  | NodeKind.Map => NodeKind.Map
  end.

(** [accept] of [ExprNode<T>] and of [StmtNode<T>] has one body: it casts
    [this] to a pointer to [const T] and calls [v->visit] on it, so the
    node at [p] hands itself to the callback for [T]. *)
Definition IRNode_accept {St : Type} (v : IRVisitorStrict St) (node : IRNode)
    (p : addr) (s : St) : outcome St :=
  visit v (base_argument (IRNode_kind node)) p s.

(** [void accept(IRVisitorStrict *v) const {ptr->accept(v);}] of [Expr]:
    a virtual call through the pointer. *)
Definition Expr_accept {St : Type} (v : IRVisitorStrict St) (h : heap)
    (e : Expr) (s : St) : outcome St :=
  match Expr_ptr e with
  | None => UndefinedBehaviour
  | Some p => node ← deref h (Some p); IRNode_accept v node p s
  end.

(** [void accept(IRVisitorStrict *v) const {ptr->accept(v);}] of [Stmt]. *)
Definition Stmt_accept {St : Type} (v : IRVisitorStrict St) (h : heap)
    (s0 : Stmt) (s : St) : outcome St :=
  match Stmt_ptr s0 with
  | None => UndefinedBehaviour
  | Some p => node ← deref h (Some p); IRNode_accept v node p s
  end.

(** [void accept(IRVisitorStrict *visitor) const { visitor->visit(this); }]
    of [Func]: the handle itself is handed over, its pointer is not read. *)
Definition Func_accept {St : Type} (v : IRVisitorStrict St) (f : Func)
    (s : St) : outcome St :=
  visit_Func v f s.

(** The classes that derive from [ExprNode<T>]; the others derive from
    [StmtNode<T>]. *)
Definition is_ExprNode (k : NodeKind.t) : bool :=
  match k with
  | NodeKind.Literal | NodeKind.VarExpr | NodeKind.Load | NodeKind.FieldRead
  | NodeKind.Call | NodeKind.Length | NodeKind.IndexRead
  | NodeKind.TensorIndexRead | NodeKind.Neg | NodeKind.Add | NodeKind.Sub
  | NodeKind.Mul | NodeKind.Div | NodeKind.Not | NodeKind.Eq | NodeKind.Ne
  | NodeKind.Gt | NodeKind.Lt | NodeKind.Ge | NodeKind.Le | NodeKind.And
  | NodeKind.Or | NodeKind.Xor | NodeKind.TupleRead | NodeKind.TensorRead
  | NodeKind.IndexedTensor | NodeKind.IndexExpr => true
  | _ => false
  end.

(** * Properties *)

(** ** Handle lifetime *)

Section HandleLifetime.
Context {T : Type} `{Managed T}.

Lemma aquire_Done (node : T) :
  ref node < LONG_MAX ->
  aquire node = Done (set_ref (ref node + 1) node).
Proof.
  intros Hlt. unfold aquire. destruct (decide (ref node < LONG_MAX)); [reflexivity | contradiction].
Qed.

Lemma release_Done (node : T) :
  LONG_MIN < ref node ->
  release node =
    Done (if decide (ref node - 1 = 0) then None
          else Some (set_ref (ref node - 1) node)).
Proof.
  intros Hlt. unfold release.
  destruct (decide (LONG_MIN < ref node)); [| contradiction].
  cbv zeta. rewrite ref_set_ref.
  destruct (decide (ref node - 1 = 0)); reflexivity.
Qed.

Lemma LONG_MIN_neg : LONG_MIN < 0.
Proof. reflexivity. Qed.

Lemma wrap_inv (node : T) :
  ref node = 0 ->
  exists w0, wrap node = Done w0 /\ cell_inv w0 /\ handles w0 = 1%nat.
Proof.
  intros Hfresh. unfold wrap.
  rewrite aquire_Done by (rewrite Hfresh; reflexivity).
  eexists; split; [reflexivity |]. split; [| reflexivity].
  unfold cell_inv; simpl. rewrite ref_set_ref, Hfresh. split; [reflexivity | lia].
Qed.

Lemma step_inv (ev : event) (w : cell T) :
  cell_inv w ->
  disciplined (handles w) [ev] = true ->
  exists w', step ev w = Done w' /\ cell_inv w' /\
             handles w' = live_after (handles w) [ev] /\
             is_Some (target w) /\
             (target w' = None <-> ev = Drop /\ handles w = 1%nat).
Proof.
  intros Hinv Hd. unfold cell_inv in Hinv. unfold step.
  destruct w as [[node |] h]; simpl in *.
  - destruct Hinv as [Href Hpos].
    destruct ev; simpl in Hd.
    + apply andb_true_iff in Hd as [Hd _].
      apply andb_true_iff in Hd as [_ Hmax]. apply Z.ltb_lt in Hmax.
      rewrite aquire_Done by lia. simpl.
      eexists; split; [reflexivity |].
      unfold cell_inv; simpl. rewrite ref_set_ref.
      repeat split; try lia; eauto; try discriminate.
      intros [Hc _]; discriminate.
    + pose proof LONG_MIN_neg.
      rewrite release_Done by lia. simpl.
      eexists; split; [reflexivity |].
      unfold cell_inv; simpl.
      destruct (decide (ref node - 1 = 0)) as [Hz | Hnz]; simpl.
      * repeat split; try lia; eauto.
      * rewrite ref_set_ref.
        repeat split; try lia; eauto; try discriminate.
  - destruct ev; simpl in Hd; rewrite Hinv in Hd; discriminate.
Qed.

Lemma run_app (evs1 evs2 : list event) (w : cell T) :
  run (evs1 ++ evs2) w = w' ← run evs1 w; run evs2 w'.
Proof.
  revert w. induction evs1 as [| ev evs1 IH]; intros w; simpl; [reflexivity |].
  destruct (step ev w) as [w' | msg |]; simpl; [apply IH | reflexivity | reflexivity].
Qed.

Lemma disciplined_app (h : nat) (evs1 evs2 : list event) :
  disciplined h (evs1 ++ evs2) =
  disciplined h evs1 && disciplined (live_after h evs1) evs2.
Proof.
  revert h. induction evs1 as [| [|] evs1 IH]; intros h; simpl; [reflexivity | |].
  - rewrite IH, andb_assoc. reflexivity.
  - rewrite IH, andb_assoc. reflexivity.
Qed.

Lemma run_inv (evs : list event) (w : cell T) :
  cell_inv w ->
  disciplined (handles w) evs = true ->
  exists w', run evs w = Done w' /\ cell_inv w' /\
             handles w' = live_after (handles w) evs.
Proof.
  revert w. induction evs as [| ev evs IH]; intros w Hinv Hd.
  - exists w. simpl. auto.
  - change (ev :: evs) with ([ev] ++ evs) in Hd.
    rewrite disciplined_app in Hd. apply andb_true_iff in Hd as [Hd1 Hd2].
    destruct (step_inv ev w Hinv Hd1) as (w1 & Hstep & Hinv1 & Hh1 & _).
    rewrite <- Hh1 in Hd2.
    destruct (IH w1 Hinv1 Hd2) as (w' & Hrun & Hinv' & Hh').
    exists w'. simpl. rewrite Hstep. simpl. split; [exact Hrun |].
    split; [exact Hinv' |]. rewrite Hh', Hh1. destruct ev; reflexivity.
Qed.

End HandleLifetime.

(** C4: a node is wrapped in its first handle when it is made; after any
    disciplined sequence of handle copies and drops the run ends without
    undefined behaviour, the reference count of the node equals the number
    of live handles, the node is there exactly when a handle is left, and
    the last operation deleted the node exactly when it dropped the last
    handle. *)
Theorem handle_lifetime {T : Type} `{Managed T} (node : T)
    (evs : list event) :
  ref node = 0 ->
  disciplined 1 evs = true ->
  exists w0 w,
    wrap node = Done w0 /\ run evs w0 = Done w /\
    handles w = live_after 1 evs /\
    (forall n, target w = Some n -> ref n = Z.of_nat (handles w)) /\
    (is_Some (target w) <-> (0 < handles w)%nat) /\
    (forall evs1 ev, evs = evs1 ++ [ev] ->
       exists w1, run evs1 w0 = Done w1 /\ is_Some (target w1) /\
                  (target w = None <-> ev = Drop /\ handles w1 = 1%nat)).
Proof.
  intros Hfresh Hd.
  destruct (wrap_inv node Hfresh) as (w0 & Hwrap & Hinv0 & Hh0).
  rewrite <- Hh0 in Hd.
  destruct (run_inv evs w0 Hinv0 Hd) as (w & Hrun & Hinv & Hh).
  exists w0, w. rewrite Hh0 in Hh.
  repeat (split; [assumption |]).
  split; [| split].
  - intros n Hn. unfold cell_inv in Hinv. rewrite Hn in Hinv. tauto.
  - unfold cell_inv in Hinv. destruct (target w) as [n |].
    + split; [tauto | eauto].
    + split; [intros [? ?]; discriminate | lia].
  - intros evs1 ev ->.
    rewrite disciplined_app in Hd. apply andb_true_iff in Hd as [Hd1 Hd2].
    destruct (run_inv evs1 w0 Hinv0 Hd1) as (w1 & Hrun1 & Hinv1 & Hh1).
    rewrite <- Hh1 in Hd2.
    destruct (step_inv ev w1 Hinv1 Hd2) as (w' & Hstep & _ & _ & Halive & Hiff).
    rewrite run_app, Hrun1 in Hrun. simpl in Hrun.
    rewrite Hstep in Hrun. simpl in Hrun. injection Hrun as <-.
    exists w1. auto.
Qed.

Lemma handle_lifetime_witness :
  exists w0 w,
    wrap (mkIRNode 0 (StmtNodeBase Pass)) = Done w0 /\
    run [Copy; Drop; Drop] w0 = Done w /\
    handles w = live_after 1 [Copy; Drop; Drop] /\
    (forall n, target w = Some n -> ref n = Z.of_nat (handles w)) /\
    (is_Some (target w) <-> (0 < handles w)%nat) /\
    (forall evs1 ev, [Copy; Drop; Drop] = evs1 ++ [ev] ->
       exists w1, run evs1 w0 = Done w1 /\ is_Some (target w1) /\
                  (target w = None <-> ev = Drop /\ handles w1 = 1%nat)).
Proof.
  apply (handle_lifetime (mkIRNode 0 (StmtNodeBase Pass)) [Copy; Drop; Drop]);
    reflexivity.
Defined.

Example last_handle_deletes_node :
  (w0 ← wrap (mkIRNode 0 (StmtNodeBase Pass)); run [Copy; Drop; Drop] w0)
  = Done (mkCell None 0).
Proof. reflexivity. Qed.

Example two_handles_keep_content :
  (w0 ← wrap (FuncContent.mk 0 "f" [] [] Environment_default Stmt_undefined
                Storage_default 0);
   run [Copy; Copy; Drop] w0)
  = Done (mkCell (Some (FuncContent.mk 0 "f" [] [] Environment_default
                          Stmt_undefined Storage_default 2)) 2).
Proof. reflexivity. Qed.

(** ** Downcasts *)

Lemma dynamic_cast_kind (E : NodeKind.t) (h : heap) (p : addr)
    (node : IRNode) :
  h !! p = Some node ->
  dynamic_cast E h (Some p) =
    Done (if decide (IRNode_kind node = E) then Some p else None).
Proof. intros Hp. unfold dynamic_cast, deref. rewrite Hp. reflexivity. Qed.

Lemma Expr_isa_kind (E : NodeKind.t) (h : heap) (p : addr) (node : IRNode) :
  h !! p = Some node ->
  Expr_isa E h (mkExpr (Some p)) = Done (bool_decide (IRNode_kind node = E)).
Proof.
  intros Hp. unfold Expr_isa, Expr_defined. cbn [Expr_ptr].
  rewrite (dynamic_cast_kind E h p node Hp).
  simpl. destruct (decide (IRNode_kind node = E)) as [Heq | Hne].
  - rewrite bool_decide_eq_true_2 by exact Heq. reflexivity.
  - rewrite bool_decide_eq_false_2 by exact Hne. reflexivity.
Qed.

Lemma Stmt_isa_kind (S : NodeKind.t) (h : heap) (p : addr) (node : IRNode) :
  h !! p = Some node ->
  Stmt_isa S h (mkStmt (Some p)) = Done (bool_decide (IRNode_kind node = S)).
Proof.
  intros Hp. unfold Stmt_isa, Stmt_defined. cbn [Stmt_ptr].
  rewrite (dynamic_cast_kind S h p node Hp).
  simpl. destruct (decide (IRNode_kind node = S)) as [Heq | Hne].
  - rewrite bool_decide_eq_true_2 by exact Heq. reflexivity.
  - rewrite bool_decide_eq_false_2 by exact Hne. reflexivity.
Qed.

(** C3: for a defined handle, expression or statement, on a live node of
    concrete class K: [isa<K>] is true, [isa<J>] is false for every other
    class J, [to<K>] returns the pointer the handle holds, and [to<J>] for
    another class J stops at the invariant check. *)
Theorem downcast_sound (h : heap) (p : addr) (node : IRNode)
    (K J : NodeKind.t) :
  h !! p = Some node ->
  IRNode_kind node = K ->
  J <> K ->
  (Expr_isa K h (mkExpr (Some p)) = Done true /\
   Expr_isa J h (mkExpr (Some p)) = Done false /\
   Expr_to K h (mkExpr (Some p)) = Done (Some p) /\
   Expr_to J h (mkExpr (Some p)) = InvariantFailure "Wrong Expr type") /\
  (Stmt_isa K h (mkStmt (Some p)) = Done true /\
   Stmt_isa J h (mkStmt (Some p)) = Done false /\
   Stmt_to K h (mkStmt (Some p)) = Done (Some p) /\
   Stmt_to J h (mkStmt (Some p)) = InvariantFailure "Wrong Expr type ").
Proof.
  intros Hp HK HJ.
  assert (HJ' : IRNode_kind node <> J) by congruence.
  unfold Expr_to, Stmt_to.
  rewrite !(Expr_isa_kind _ h p node Hp), !(Stmt_isa_kind _ h p node Hp).
  rewrite (bool_decide_eq_true_2 _ HK), (bool_decide_eq_false_2 _ HJ').
  repeat split.
Qed.

Lemma downcast_sound_witness :
  let h : heap := {[ 1%positive := mkIRNode 1 (StmtNodeBase Pass) ]} in
  (Expr_isa NodeKind.Pass h (mkExpr (Some 1%positive)) = Done true /\
   Expr_isa NodeKind.Add h (mkExpr (Some 1%positive)) = Done false /\
   Expr_to NodeKind.Pass h (mkExpr (Some 1%positive)) = Done (Some 1%positive) /\
   Expr_to NodeKind.Add h (mkExpr (Some 1%positive))
     = InvariantFailure "Wrong Expr type") /\
  (Stmt_isa NodeKind.Pass h (mkStmt (Some 1%positive)) = Done true /\
   Stmt_isa NodeKind.Add h (mkStmt (Some 1%positive)) = Done false /\
   Stmt_to NodeKind.Pass h (mkStmt (Some 1%positive)) = Done (Some 1%positive) /\
   Stmt_to NodeKind.Add h (mkStmt (Some 1%positive))
     = InvariantFailure "Wrong Expr type ").
Proof.
  intros h.
  apply (downcast_sound h 1%positive (mkIRNode 1 (StmtNodeBase Pass))
           NodeKind.Pass NodeKind.Add).
  - reflexivity.
  - reflexivity.
  - discriminate.
Defined.

(** C10: on an undefined handle, expression or statement, [isa<K>] returns
    false for every class K: the definedness test comes first, so the null
    pointer is not read and no invariant check runs. *)
Theorem isa_undefined (h : heap) (K : NodeKind.t) (e : Expr) (s : Stmt) :
  Expr_defined e = false ->
  Stmt_defined s = false ->
  Expr_isa K h e = Done false /\ Stmt_isa K h s = Done false.
Proof.
  intros He Hs. unfold Expr_isa, Stmt_isa. rewrite He, Hs. split; reflexivity.
Qed.

Lemma isa_undefined_witness :
  Expr_isa NodeKind.Literal ∅ Expr_undefined = Done false /\
  Stmt_isa NodeKind.Literal ∅ Stmt_undefined = Done false.
Proof.
  apply (isa_undefined ∅ NodeKind.Literal Expr_undefined Stmt_undefined);
    reflexivity.
Defined.

(** ** The type query *)

(** C6, as the spec states it, fails: on the undefined handle [type()]
    does not stop at an invariant check. *)
Lemma Expr_type_undefined_unchecked :
  Expr_defined Expr_undefined = false /\
  failed_invariant (Expr_type ∅ Expr_undefined) = false.
Proof. split; reflexivity. Qed.

(** C6, amended: [type()] runs no invariant check; on an undefined handle
    it reads the type through the null pointer, which is undefined
    behaviour. *)
Theorem Expr_type_undefined (h : heap) (e : Expr) :
  Expr_defined e = false ->
  Expr_type h e = UndefinedBehaviour.
Proof.
  intros He. unfold Expr_type, deref. destruct e as [[p |]]; [discriminate |].
  reflexivity.
Qed.

Lemma Expr_type_undefined_witness :
  Expr_type ∅ Expr_undefined = UndefinedBehaviour.
Proof. apply (Expr_type_undefined ∅ Expr_undefined). reflexivity. Defined.

(** ** [ForDomain] construction *)

Lemma ForDomain_ofSet_outcome (set : Expr) (var : Var)
    (kind : ForDomain.Kind.t) :
  ForDomain_ofSet set var kind =
    if decide (kind = ForDomain.Kind.IndexSet) then InvariantFailure EmptyString
    else Done (ForDomain.mk kind IndexSet_default set var).
Proof. destruct kind; reflexivity. Qed.

Lemma ForDomain_ofNeighbors_outcome (set : Expr) (var : Var)
    (kind : ForDomain.Kind.t) (indexSet : IndexSet) :
  ForDomain_ofNeighbors set var kind indexSet =
    if decide (kind = ForDomain.Kind.NeighborsOf)
    then Done (ForDomain.mk kind indexSet set var)
    else InvariantFailure EmptyString.
Proof. destruct kind; reflexivity. Qed.

Lemma constructed_indexSet (d : ForDomain.t) :
  constructed d ->
  ForDomain.indexSet d <> IndexSet_default ->
  ForDomain.kind d = ForDomain.Kind.IndexSet \/
  ForDomain.kind d = ForDomain.Kind.NeighborsOf.
Proof.
  intros Hc Hpop. destruct Hc as [kind d Hd | indexSet d Hd
                                 | set var kind d Hd | set var kind indexSet d Hd].
  - injection Hd as <-. simpl in Hpop. contradiction.
  - injection Hd as <-. left. reflexivity.
  - rewrite ForDomain_ofSet_outcome in Hd.
    destruct (decide (kind = ForDomain.Kind.IndexSet)); [discriminate |].
    injection Hd as <-. simpl in Hpop. contradiction.
  - rewrite ForDomain_ofNeighbors_outcome in Hd.
    destruct (decide (kind = ForDomain.Kind.NeighborsOf)); [| discriminate].
    injection Hd as <-. right. assumption.
Qed.

(** C7: the constructor taking (set, var, kind) fails its invariant check
    exactly when kind is [IndexSet]; the constructor taking
    (set, var, kind, indexSet) fails it exactly when kind is not
    [NeighborsOf], so for [Edges] whatever the index set; and whichever
    constructor built a [ForDomain], its [indexSet] differs from the
    default one only if its kind is [IndexSet] or [NeighborsOf]. *)
Theorem ForDomain_construction :
  (forall set var kind,
     failed_invariant (ForDomain_ofSet set var kind) = true
       <-> kind = ForDomain.Kind.IndexSet) /\
  (forall set var kind,
     succeeded (ForDomain_ofSet set var kind) = true
       <-> kind <> ForDomain.Kind.IndexSet) /\
  (forall set var kind indexSet,
     failed_invariant (ForDomain_ofNeighbors set var kind indexSet) = true
       <-> kind <> ForDomain.Kind.NeighborsOf) /\
  (forall set var kind indexSet,
     succeeded (ForDomain_ofNeighbors set var kind indexSet) = true
       <-> kind = ForDomain.Kind.NeighborsOf) /\
  (forall set var indexSet,
     failed_invariant
       (ForDomain_ofNeighbors set var ForDomain.Kind.Edges indexSet) = true) /\
  (forall d,
     constructed d ->
     ForDomain.indexSet d <> IndexSet_default ->
     ForDomain.kind d = ForDomain.Kind.IndexSet \/
     ForDomain.kind d = ForDomain.Kind.NeighborsOf).
Proof.
  repeat split.
  - rewrite ForDomain_ofSet_outcome.
    destruct (decide (kind = ForDomain.Kind.IndexSet)); [auto | discriminate].
  - intros ->. reflexivity.
  - rewrite ForDomain_ofSet_outcome.
    destruct (decide (kind = ForDomain.Kind.IndexSet)); [discriminate | auto].
  - intros Hk. rewrite ForDomain_ofSet_outcome.
    destruct (decide (kind = ForDomain.Kind.IndexSet)); [contradiction | reflexivity].
  - rewrite ForDomain_ofNeighbors_outcome.
    destruct (decide (kind = ForDomain.Kind.NeighborsOf)); [discriminate | auto].
  - intros Hk. rewrite ForDomain_ofNeighbors_outcome.
    destruct (decide (kind = ForDomain.Kind.NeighborsOf)); [contradiction | reflexivity].
  - rewrite ForDomain_ofNeighbors_outcome.
    destruct (decide (kind = ForDomain.Kind.NeighborsOf)); [auto | discriminate].
  - intros ->. reflexivity.
  - apply constructed_indexSet.
Qed.

Lemma ForDomain_construction_witness :
  let d := ForDomain.mk ForDomain.Kind.NeighborsOf (mkIndexSet 4)
             Expr_undefined Var_default in
  ForDomain.kind d = ForDomain.Kind.IndexSet \/
  ForDomain.kind d = ForDomain.Kind.NeighborsOf.
Proof.
  intros d.
  destruct ForDomain_construction as (_ & _ & _ & _ & _ & Hpopulated).
  apply Hpopulated.
  - apply (constructed_ofNeighbors Expr_undefined Var_default
             ForDomain.Kind.NeighborsOf (mkIndexSet 4)).
    reflexivity.
  - discriminate.
Defined.

Example ForDomain_Edges_with_indexSet :
  ForDomain_ofNeighbors Expr_undefined Var_default ForDomain.Kind.Edges
    (mkIndexSet 4) = InvariantFailure EmptyString.
Proof. reflexivity. Qed.

Example ForDomain_NeighborsOf_default_indexSet :
  ForDomain_ofNeighbors Expr_undefined Var_default ForDomain.Kind.NeighborsOf
    IndexSet_default
  = Done (ForDomain.mk ForDomain.Kind.NeighborsOf IndexSet_default
            Expr_undefined Var_default).
Proof. reflexivity. Qed.

(** ** [Func]: what the setters leave alone *)

Lemma proto_eq_refl (fs : funcs) : proto_eq fs fs.
Proof. intros q. reflexivity. Qed.

Lemma proto_eq_trans (fs1 fs2 fs3 : funcs) :
  proto_eq fs1 fs2 -> proto_eq fs2 fs3 -> proto_eq fs1 fs3.
Proof. intros H12 H23 q. rewrite H23. apply H12. Qed.

Lemma proto_eq_insert (fs : funcs) (p : addr) (c c' : FuncContent.t) :
  fs !! p = Some c ->
  prototype c' = prototype c ->
  proto_eq fs (<[p := c']> fs).
Proof.
  intros Hp Hproto q. destruct (decide (p = q)) as [<- | Hne].
  - rewrite lookup_insert_eq, Hp. simpl. congruence.
  - rewrite lookup_insert_ne by exact Hne. reflexivity.
Qed.

Lemma proto_eq_same_prototype (fs fs' : funcs) (g : Func) :
  proto_eq fs fs' -> same_prototype fs fs' g.
Proof.
  intros Heq. unfold same_prototype, getName, getArguments, getResults,
    getBody, getKind, Func_deref.
  destruct (Func_ptr g) as [q |]; [| repeat split].
  specialize (Heq q).
  destruct (fs' !! q) as [c' |], (fs !! q) as [c |]; simpl in Heq;
    try discriminate; [| repeat split].
  injection Heq as Hk Hn Ha Hr Hb. simpl.
  rewrite Hk, Hn, Ha, Hr, Hb. repeat split.
Qed.

Lemma setEnvironment_Done (fs : funcs) (f : Func) (p : addr)
    (c : FuncContent.t) (env : Environment) :
  Func_ptr f = Some p -> fs !! p = Some c ->
  setEnvironment fs f env = Done (<[p := FuncContent_set_env env c]> fs).
Proof.
  intros Hf Hp. unfold setEnvironment, Func_deref. rewrite Hf, Hp. reflexivity.
Qed.

Lemma setStorage_Done (fs : funcs) (f : Func) (p : addr)
    (c : FuncContent.t) (storage : Storage) :
  Func_ptr f = Some p -> fs !! p = Some c ->
  setStorage fs f storage
    = Done (<[p := FuncContent_set_storage storage c]> fs).
Proof.
  intros Hf Hp. unfold setStorage, Func_deref. rewrite Hf, Hp. reflexivity.
Qed.

Lemma Func_copy_Done (fs : funcs) (f : Func) (p : addr) (c : FuncContent.t) :
  Func_ptr f = Some p -> fs !! p = Some c ->
  FuncContent.ref c < LONG_MAX ->
  Func_copy fs f
    = Done (<[p := FuncContent.set_ref (FuncContent.ref c + 1) c]> fs).
Proof.
  intros Hf Hp Hlt. unfold Func_copy, Func_deref. rewrite Hf, Hp. simpl.
  rewrite aquire_Done by exact Hlt. reflexivity.
Qed.

Lemma Func_live_insert (fs : funcs) (p : addr) (c : FuncContent.t) (g : Func) :
  Func_live fs g -> Func_live (<[p := c]> fs) g.
Proof.
  intros (q & Hg & Hq). exists q. split; [exact Hg |].
  destruct (decide (p = q)) as [<- | Hne].
  - rewrite lookup_insert_eq. eauto.
  - rewrite lookup_insert_ne by exact Hne. exact Hq.
Qed.

Lemma refs_below_insert (b b' : Z) (fs : funcs) (p : addr)
    (c : FuncContent.t) :
  refs_below b fs -> b <= b' -> FuncContent.ref c <= b' ->
  refs_below b' (<[p := c]> fs).
Proof.
  intros Hb Hle Hc q c' Hq. destruct (decide (p = q)) as [<- | Hne].
  - rewrite lookup_insert_eq in Hq. injection Hq as <-. exact Hc.
  - rewrite lookup_insert_ne in Hq by exact Hne.
    specialize (Hb q c' Hq). lia.
Qed.

Lemma Func_exec_frame (op : FuncOp) (fs : funcs) (b : Z) :
  Func_live fs (op_handle op) ->
  refs_below b fs ->
  b < LONG_MAX ->
  exists fs', Func_exec op fs = Done fs' /\ proto_eq fs fs' /\
              refs_below (b + 1) fs' /\
              (forall g, Func_live fs g -> Func_live fs' g).
Proof.
  intros (p & Hf & [c Hp]) Hb Hlt.
  pose proof (Hb p c Hp) as Hc.
  destruct op as [f env | f storage | f]; simpl in Hf |- *.
  - rewrite (setEnvironment_Done fs f p c env Hf Hp).
    eexists; split; [reflexivity |]. split; [| split].
    + apply (proto_eq_insert fs p c); [exact Hp | reflexivity].
    + apply (refs_below_insert b); [exact Hb | lia | simpl; lia].
    + intros g. apply Func_live_insert.
  - rewrite (setStorage_Done fs f p c storage Hf Hp).
    eexists; split; [reflexivity |]. split; [| split].
    + apply (proto_eq_insert fs p c); [exact Hp | reflexivity].
    + apply (refs_below_insert b); [exact Hb | lia | simpl; lia].
    + intros g. apply Func_live_insert.
  - rewrite (Func_copy_Done fs f p c Hf Hp) by lia.
    eexists; split; [reflexivity |]. split; [| split].
    + apply (proto_eq_insert fs p c); [exact Hp | reflexivity].
    + apply (refs_below_insert b); [exact Hb | lia | simpl; lia].
    + intros g. apply Func_live_insert.
Qed.

Lemma Func_run_frame (ops : list FuncOp) (fs : funcs) (b : Z) :
  (forall op, op ∈ ops -> Func_live fs (op_handle op)) ->
  refs_below b fs ->
  b + Z.of_nat (length ops) <= LONG_MAX ->
  exists fs', Func_run ops fs = Done fs' /\ proto_eq fs fs'.
Proof.
  revert fs b. induction ops as [| op ops IH]; intros fs b Hlive Hb Hlen.
  - exists fs. split; [reflexivity | apply proto_eq_refl].
  - simpl length in Hlen.
    destruct (Func_exec_frame op fs b) as (fs1 & Hexec & Heq1 & Hb1 & Hl1).
    + apply Hlive. left.
    + exact Hb.
    + lia.
    + destruct (IH fs1 (b + 1)) as (fs' & Hrun & Heq).
      * intros op' Hin. apply Hl1, Hlive. right. exact Hin.
      * exact Hb1.
      * lia.
      * exists fs'. simpl. rewrite Hexec. simpl. split; [exact Hrun |].
        eapply proto_eq_trans; eassumption.
Qed.

(** C8: through a live handle [f], [setEnvironment] succeeds and changes
    the environment of [f]'s content only, [setStorage] succeeds and
    changes its storage only; through every handle, the name, arguments,
    results, body and kind read by the getters stay what they were, after
    one setter and after any sequence of setters and handle copies. *)
Theorem Func_setters_frame (fs : funcs) (f : Func) (env : Environment)
    (storage : Storage) (ops : list FuncOp) (b : Z) :
  Func_live fs f ->
  (forall op, op ∈ ops -> Func_live fs (op_handle op)) ->
  refs_below b fs ->
  b + Z.of_nat (length ops) <= LONG_MAX ->
  (exists fs', setEnvironment fs f env = Done fs' /\
     getEnvironment fs' f = Done env /\
     (forall g, same_prototype fs fs' g /\
                getStorage fs' g = getStorage fs g /\
                (Func_ptr g <> Func_ptr f ->
                 getEnvironment fs' g = getEnvironment fs g))) /\
  (exists fs', setStorage fs f storage = Done fs' /\
     getStorage fs' f = Done storage /\
     (forall g, same_prototype fs fs' g /\
                getEnvironment fs' g = getEnvironment fs g /\
                (Func_ptr g <> Func_ptr f ->
                 getStorage fs' g = getStorage fs g))) /\
  (exists fs', Func_run ops fs = Done fs' /\
     forall g, same_prototype fs fs' g).
Proof.
  intros (p & Hf & [c Hp]) Hlive Hb Hlen. split; [| split].
  - rewrite (setEnvironment_Done fs f p c env Hf Hp).
    eexists; split; [reflexivity |]. split.
    + unfold getEnvironment, Func_deref. rewrite Hf, lookup_insert_eq.
      reflexivity.
    + intros g. split; [| split].
      * apply proto_eq_same_prototype.
        apply (proto_eq_insert fs p c); [exact Hp | reflexivity].
      * unfold getStorage, Func_deref. destruct (Func_ptr g) as [q |]; [| reflexivity].
        destruct (decide (p = q)) as [<- | Hne].
        -- rewrite lookup_insert_eq, Hp. reflexivity.
        -- rewrite lookup_insert_ne by exact Hne. reflexivity.
      * intros Hg. unfold getEnvironment, Func_deref.
        destruct (Func_ptr g) as [q |]; [| reflexivity].
        rewrite lookup_insert_ne by congruence. reflexivity.
  - rewrite (setStorage_Done fs f p c storage Hf Hp).
    eexists; split; [reflexivity |]. split.
    + unfold getStorage, Func_deref. rewrite Hf, lookup_insert_eq.
      reflexivity.
    + intros g. split; [| split].
      * apply proto_eq_same_prototype.
        apply (proto_eq_insert fs p c); [exact Hp | reflexivity].
      * unfold getEnvironment, Func_deref. destruct (Func_ptr g) as [q |]; [| reflexivity].
        destruct (decide (p = q)) as [<- | Hne].
        -- rewrite lookup_insert_eq, Hp. reflexivity.
        -- rewrite lookup_insert_ne by exact Hne. reflexivity.
      * intros Hg. unfold getStorage, Func_deref.
        destruct (Func_ptr g) as [q |]; [| reflexivity].
        rewrite lookup_insert_ne by congruence. reflexivity.
  - destruct (Func_run_frame ops fs b Hlive Hb Hlen) as (fs' & Hrun & Heq).
    exists fs'. split; [exact Hrun |].
    intros g. apply proto_eq_same_prototype, Heq.
Qed.

Lemma Func_setters_frame_witness :
  let x := mkVar "x" (TensorType Float []) in
  let c := FuncContent.mk 0 "f" [x] [x] Environment_default Stmt_undefined
             Storage_default 1 in
  let fs : funcs := {[ 1%positive := c ]} in
  let f := mkFunc (Some 1%positive) in
  let env := mkEnvironment [(x, Expr_undefined)] in
  let storage := mkStorage [(x, 1%nat)] in
  let ops := [OpSetStorage f storage; OpCopy f; OpSetEnvironment f env] in
  (exists fs', setEnvironment fs f env = Done fs' /\
     getEnvironment fs' f = Done env /\
     (forall g, same_prototype fs fs' g /\
                getStorage fs' g = getStorage fs g /\
                (Func_ptr g <> Func_ptr f ->
                 getEnvironment fs' g = getEnvironment fs g))) /\
  (exists fs', setStorage fs f storage = Done fs' /\
     getStorage fs' f = Done storage /\
     (forall g, same_prototype fs fs' g /\
                getEnvironment fs' g = getEnvironment fs g /\
                (Func_ptr g <> Func_ptr f ->
                 getStorage fs' g = getStorage fs g))) /\
  (exists fs', Func_run ops fs = Done fs' /\
     forall g, same_prototype fs fs' g).
Proof.
  intros x c fs f env storage ops.
  assert (Hlive : Func_live fs f).
  { exists 1%positive. split; [reflexivity |]. exists c. reflexivity. }
  apply (Func_setters_frame fs f env storage ops 1).
  - exact Hlive.
  - intros op Hin. subst ops.
    repeat (apply elem_of_cons in Hin as [-> | Hin]; [exact Hlive |]).
    apply elem_of_nil in Hin. contradiction.
  - intros q c' Hq. subst fs.
    apply lookup_singleton_Some in Hq as [_ <-]. simpl. lia.
  - vm_compute. discriminate.
Defined.

(** ** The type of an expression node is fixed *)

Lemma aquire_base (node node' : IRNode) :
  aquire node = Done node' -> base node' = base node.
Proof.
  unfold aquire. destruct (decide (ref node < LONG_MAX)); [| discriminate].
  intros [= <-]. reflexivity.
Qed.

Lemma release_base (node node' : IRNode) :
  release node = Done (Some node') -> base node' = base node.
Proof.
  unfold release. destruct (decide (LONG_MIN < ref node)); [| discriminate].
  cbv zeta. destruct (decide _); [discriminate |].
  intros [= <-]. reflexivity.
Qed.

Lemma Literal_cast_type recast (type : Type_) (node node' : IRNode) :
  Literal_cast recast type node = Done node' ->
  stored_type node' = stored_type node.
Proof.
  unfold Literal_cast, stored_type.
  destruct (base node) as [stored [] |]; try discriminate.
  intros [= <-]. reflexivity.
Qed.

Lemma Node_exec_type recast (op : NodeOp) (node node' : IRNode) :
  Node_exec recast op node = Done (Some node') ->
  stored_type node' = stored_type node.
Proof.
  destruct op as [| | type]; simpl.
  - destruct (aquire node) as [n1 | |] eqn:Ha; simpl; try discriminate.
    intros [= <-]. unfold stored_type. rewrite (aquire_base _ _ Ha). reflexivity.
  - intros Hr. unfold stored_type. rewrite (release_base _ _ Hr). reflexivity.
  - destruct (Literal_cast recast type node) as [n1 | |] eqn:Hc; simpl;
      try discriminate.
    intros [= <-]. exact (Literal_cast_type _ _ _ _ Hc).
Qed.

Lemma Node_run_type recast (ops : list NodeOp) (node node' : IRNode) :
  Node_run recast ops (Some node) = Done (Some node') ->
  stored_type node' = stored_type node.
Proof.
  revert node. induction ops as [| op ops IH]; intros node; simpl.
  - intros [= <-]. reflexivity.
  - destruct (Node_exec recast op node) as [[n1 |] | |] eqn:He; simpl;
      try discriminate.
    + intros Hrun. rewrite (IH n1 Hrun). exact (Node_exec_type _ _ _ _ He).
    + destruct ops; simpl; discriminate.
Qed.

Lemma Expr_type_stored (h : heap) (p : addr) (node : IRNode) (e : Expr) :
  Expr_type (<[p := node]> h) e =
    match Expr_ptr e with
    | None => UndefinedBehaviour
    | Some q =>
        if decide (p = q)
        then match stored_type node with
             | Some type => Done type
             | None => UndefinedBehaviour
             end
        else Expr_type h e
    end.
Proof.
  unfold Expr_type, deref, stored_type.
  destruct (Expr_ptr e) as [q |]; [| reflexivity].
  destruct (decide (p = q)) as [<- | Hne].
  - rewrite lookup_insert_eq. simpl. destruct (base node); reflexivity.
  - rewrite lookup_insert_ne by exact Hne. reflexivity.
Qed.

(** C5: whatever is done to a node after it is made (handles acquired and
    released, a literal re-cast), as long as the node is still there
    [type()] returns through every handle what it returned before; and
    re-casting a literal succeeds and keeps its type. *)
Theorem type_fixed_at_construction recast (ops : list NodeOp)
    (node node' : IRNode) :
  Node_run recast ops (Some node) = Done (Some node') ->
  (forall (h : heap) (p : addr) (e : Expr),
     Expr_type (<[p := node']> h) e = Expr_type (<[p := node]> h) e) /\
  (forall r stored data size type,
     exists lit,
       Literal_cast recast type
         (mkIRNode r (ExprNodeBase stored (Literal data size))) = Done lit /\
       stored_type lit = Some stored).
Proof.
  intros Hrun. split.
  - intros h p e. rewrite !Expr_type_stored.
    rewrite (Node_run_type _ _ _ _ Hrun). reflexivity.
  - intros r stored data size type. eexists. split; reflexivity.
Qed.

Lemma type_fixed_at_construction_witness :
  let recast := fun (_ _ : Type_) (data : list Byte.byte) => rev data in
  let lit := mkIRNode 1 (ExprNodeBase (TensorType Int [])
                           (Literal [Byte.x05; Byte.x00] 2)) in
  let lit' := mkIRNode 2 (ExprNodeBase (TensorType Int [])
                            (Literal [Byte.x00; Byte.x05] 2)) in
  (forall (h : heap) (p : addr) (e : Expr),
     Expr_type (<[p := lit']> h) e = Expr_type (<[p := lit]> h) e) /\
  (forall r stored data size type,
     exists l,
       Literal_cast recast type
         (mkIRNode r (ExprNodeBase stored (Literal data size))) = Done l /\
       stored_type l = Some stored).
Proof.
  intros recast lit lit'.
  apply (type_fixed_at_construction recast
           [NAquire; NCast (TensorType Float []); NAquire; NRelease]
           lit lit').
  reflexivity.
Defined.

(** ** The type of an index expression *)

Example contraction_k_last_in_first_factor :
  indexVarsOf 3 Contraction.store (Contraction.at_ 5)
    = [Contraction.i; Contraction.k; Contraction.j] /\
  getIndexExprType Contraction.store [Contraction.i; Contraction.j]
    (Contraction.at_ 5)
    = Done (TensorType Float [mkIndexSet 3; mkIndexSet 4]).
Proof. split; reflexivity. Qed.

Example contraction_k_first :
  indexVarsOf 3 Contraction.store (Contraction.at_ 6)
    = [Contraction.j; Contraction.i; Contraction.k] /\
  getIndexExprType Contraction.store [Contraction.i; Contraction.j]
    (Contraction.at_ 6)
    = Done (TensorType Float [mkIndexSet 3; mkIndexSet 4]).
Proof. split; reflexivity. Qed.

Example contraction_order_of_resultVars :
  getIndexExprType Contraction.store [Contraction.j; Contraction.i]
    (Contraction.at_ 5)
    = Done (TensorType Float [mkIndexSet 4; mkIndexSet 3]).
Proof. reflexivity. Qed.

(** C1: for every list of result variables and every value with a
    component type, [getIndexExprType] returns a tensor type whose order
    is the number of result variables, whose dimensions are the index
    sets of the result variables, position by position, and whose
    component type is that of the value; the value's own index variables
    play no part: any value with the same component type gives the same
    type. *)
Theorem getIndexExprType_shape (h : heap) (resultVars : list IndexVar)
    (value : Expr) (c : ComponentType) (dims : list IndexSet) :
  Expr_type h value = Done (TensorType c dims) ->
  exists t,
    getIndexExprType h resultVars value = Done t /\
    isTensor t = true /\
    order t = length resultVars /\
    (forall n v, resultVars !! n = Some v ->
                 dimensionsOf t !! n = Some (getDomain v)) /\
    (forall n d, dimensionsOf t !! n = Some d ->
                 exists v, resultVars !! n = Some v /\ d = getDomain v) /\
    componentTypeOf t = Some c /\
    (forall h' value' dims',
       Expr_type h' value' = Done (TensorType c dims') ->
       getIndexExprType h' resultVars value' = Done t).
Proof.
  intros Hty. exists (TensorType c (map getDomain resultVars)).
  split; [| split; [| split; [| split; [| split; [| split]]]]].
  - unfold getIndexExprType. rewrite Hty. reflexivity.
  - reflexivity.
  - simpl. apply length_map.
  - intros n v Hn. simpl. rewrite list_lookup_fmap, Hn. reflexivity.
  - intros n d Hn. simpl in Hn. rewrite list_lookup_fmap in Hn.
    destruct (resultVars !! n) as [v |]; [| discriminate].
    injection Hn as <-. exists v. split; reflexivity.
  - reflexivity.
  - intros h' value' dims' Hty'. unfold getIndexExprType. rewrite Hty'.
    reflexivity.
Qed.

Lemma getIndexExprType_shape_witness :
  exists t,
    getIndexExprType Contraction.store [Contraction.i; Contraction.j]
      (Contraction.at_ 5) = Done t /\
    isTensor t = true /\
    order t = length [Contraction.i; Contraction.j] /\
    (forall n v, [Contraction.i; Contraction.j] !! n = Some v ->
                 dimensionsOf t !! n = Some (getDomain v)) /\
    (forall n d, dimensionsOf t !! n = Some d ->
                 exists v, [Contraction.i; Contraction.j] !! n = Some v /\
                           d = getDomain v) /\
    componentTypeOf t = Some Float /\
    (forall h' value' dims',
       Expr_type h' value' = Done (TensorType Float dims') ->
       getIndexExprType h' [Contraction.i; Contraction.j] value' = Done t).
Proof.
  apply (getIndexExprType_shape Contraction.store
           [Contraction.i; Contraction.j] (Contraction.at_ 5) Float []).
  reflexivity.
Defined.

(** ** Arity of tensor reads and writes *)

Lemma arity_check (n k : nat) :
  bool_decide (n = 1%nat) || bool_decide (n = k) = true <-> n = 1%nat \/ n = k.
Proof.
  rewrite orb_true_iff, !bool_decide_eq_true. reflexivity.
Qed.

(** C2: for a tensor expression of order k, [TensorRead::make] and
    [TensorWrite::make] build their node when the index list has size 1
    or size k, and stop at the invariant check for every other size. *)
Theorem tensor_access_arity (h : heap) (tensor : Expr) (indices : list Expr)
    (value : Expr) (cop : CompoundOperator.t) (c : ComponentType)
    (dims : list IndexSet) :
  Expr_type h tensor = Done (TensorType c dims) ->
  (length indices = 1%nat \/ length indices = length dims ->
   TensorRead_make h tensor indices
     = Done (mkIRNode 0 (ExprNodeBase (TensorType c [])
                           (TensorRead tensor indices))) /\
   TensorWrite_make h tensor indices value cop
     = Done (mkIRNode 0 (StmtNodeBase
                           (TensorWrite tensor indices value cop)))) /\
  (length indices <> 1%nat /\ length indices <> length dims ->
   TensorRead_make h tensor indices
     = InvariantFailure "wrong number of indices" /\
   TensorWrite_make h tensor indices value cop
     = InvariantFailure "wrong number of indices").
Proof.
  intros Hty. unfold TensorRead_make, TensorWrite_make, getBlockType.
  rewrite Hty. simpl.
  destruct (bool_decide (length indices = 1%nat)
            || bool_decide (length indices = length dims)) eqn:Hchk.
  - simpl. split; [intros _; split; reflexivity |].
    apply arity_check in Hchk. intros [H1 Hk]. tauto.
  - simpl. split; [| intros _; split; reflexivity].
    intros Hok. apply arity_check in Hok. congruence.
Qed.

Lemma tensor_access_arity_witness :
  let h := Contraction.store in
  let tensor := Contraction.at_ 1 in
  let indices := [Contraction.at_ 5; Contraction.at_ 6] in
  let value := Contraction.at_ 5 in
  (length indices = 1%nat \/ length indices = 2%nat ->
   TensorRead_make h tensor indices
     = Done (mkIRNode 0 (ExprNodeBase (TensorType Float [])
                           (TensorRead tensor indices))) /\
   TensorWrite_make h tensor indices value CompoundOperator.Add
     = Done (mkIRNode 0 (StmtNodeBase
                           (TensorWrite tensor indices value
                              CompoundOperator.Add)))) /\
  (length indices <> 1%nat /\ length indices <> 2%nat ->
   TensorRead_make h tensor indices
     = InvariantFailure "wrong number of indices" /\
   TensorWrite_make h tensor indices value CompoundOperator.Add
     = InvariantFailure "wrong number of indices").
Proof.
  intros h tensor indices value.
  apply (tensor_access_arity h tensor indices value CompoundOperator.Add
           Float [mkIndexSet 3; mkIndexSet 5]).
  reflexivity.
Defined.

Example TensorRead_three_indices_on_matrix :
  TensorRead_make Contraction.store (Contraction.at_ 1)
    [Contraction.at_ 5; Contraction.at_ 5; Contraction.at_ 5]
  = InvariantFailure "wrong number of indices".
Proof. reflexivity. Qed.

Example TensorRead_flattened_index_on_matrix :
  succeeded (TensorRead_make Contraction.store (Contraction.at_ 1)
               [Contraction.at_ 5]) = true.
Proof. reflexivity. Qed.

(** ** The registry of intrinsics *)

Lemma Intrinsics_init_answers (signature : string -> list Var * list Var) :
  match Intrinsics.init signature with
  | Done (reg, fs) =>
      forallb (Intrinsics.answers fs (Intrinsics.byName reg)) Intrinsics.names
  | _ => false
  end = true.
Proof. vm_compute. reflexivity. Qed.

Lemma Intrinsics_answers_spec (fs : funcs) (m : gmap string Func)
    (key : string) :
  Intrinsics.answers fs m key = true ->
  exists f,
    Intrinsics.at_ key m = (f, m) /\
    Intrinsics.at_ key (snd (Intrinsics.at_ key m)) = (f, m) /\
    Func_defined f = true /\
    getKind fs f = Done Func.Kind.Intrinsic /\
    getName fs f = Done key.
Proof.
  unfold Intrinsics.answers.
  destruct (Intrinsics.at_ key m) as [f m'] eqn:Hat.
  rewrite !andb_true_iff, bool_decide_eq_true.
  intros [[[-> Hdef] Hkind] Hname].
  exists f. simpl. rewrite Hat.
  repeat split; try assumption.
  - destruct (getKind fs f) as [[] | |]; try discriminate. reflexivity.
  - destruct (getName fs f) as [n | |]; try discriminate.
    apply bool_decide_eq_true in Hname. congruence.
Qed.

(** C9: once initialised, the registry maps each of the seventeen names to
    a defined [Func] of kind [Intrinsic] whose name is the lookup key; the
    lookup leaves the map as it was, so a second lookup returns the same
    handle. *)
Theorem Intrinsics_byName (signature : string -> list Var * list Var) :
  exists reg fs,
    Intrinsics.init signature = Done (reg, fs) /\
    forall key, key ∈ Intrinsics.names ->
      exists f,
        Intrinsics.at_ key (Intrinsics.byName reg) = (f, Intrinsics.byName reg) /\
        Intrinsics.at_ key (snd (Intrinsics.at_ key (Intrinsics.byName reg)))
          = (f, Intrinsics.byName reg) /\
        Func_defined f = true /\
        getKind fs f = Done Func.Kind.Intrinsic /\
        getName fs f = Done key.
Proof.
  pose proof (Intrinsics_init_answers signature) as Hall.
  destruct (Intrinsics.init signature) as [[reg fs] | |]; try discriminate.
  exists reg, fs. split; [reflexivity |].
  intros key Hin. apply Intrinsics_answers_spec.
  rewrite forallb_forall in Hall. apply Hall.
  apply list_elem_of_In. exact Hin.
Qed.

Lemma Intrinsics_byName_witness :
  exists reg fs,
    Intrinsics.init (fun _ => ([], [])) = Done (reg, fs) /\
    exists f,
      Intrinsics.at_ "sqrt" (Intrinsics.byName reg)
        = (f, Intrinsics.byName reg) /\
      Intrinsics.at_ "sqrt"
        (snd (Intrinsics.at_ "sqrt" (Intrinsics.byName reg)))
        = (f, Intrinsics.byName reg) /\
      Func_defined f = true /\
      getKind fs f = Done Func.Kind.Intrinsic /\
      getName fs f = Done "sqrt".
Proof.
  destruct (Intrinsics_byName (fun _ => ([], []))) as (reg & fs & Hinit & Hall).
  exists reg, fs. split; [exact Hinit |].
  apply Hall. apply list_elem_of_In. do 7 right. left. reflexivity.
Defined.

Example Intrinsics_sqrt :
  match Intrinsics.init (fun _ => ([], [])) with
  | Done (reg, fs) =>
      fst (Intrinsics.at_ "sqrt" (Intrinsics.byName reg)) = Intrinsics.sqrt reg /\
      getName fs (Intrinsics.sqrt reg) = Done "sqrt" /\
      getKind fs (Intrinsics.sqrt reg) = Done Func.Kind.Intrinsic /\
      getBody fs (Intrinsics.sqrt reg) = Done Stmt_undefined
  | _ => False
  end.
Proof. vm_compute. repeat split. Qed.

Example Intrinsics_unknown_name :
  match Intrinsics.init (fun _ => ([], [])) with
  | Done (reg, fs) =>
      fst (Intrinsics.at_ "ceil" (Intrinsics.byName reg)) = Func_undefined
  | _ => False
  end.
Proof. vm_compute. reflexivity. Qed.

(** * Further properties of the inline code *)

(** ** [release] frees at one, and only at one *)

Lemma run_Copy {T : Type} `{Managed T} (node : T) (h : nat)
    (evs : list event) :
  run (Copy :: evs) (mkCell (Some node) h)
  = (w ← (node' ← aquire node; Done (mkCell (Some node') (S h)));
     run evs w).
Proof. reflexivity. Qed.

Lemma run_Drop {T : Type} `{Managed T} (node : T) (h : nat)
    (evs : list event) :
  run (Drop :: evs) (mkCell (Some node) h)
  = (w ← (t ← release node; Done (mkCell t (Nat.pred h))); run evs w).
Proof. reflexivity. Qed.

Lemma drops_below_one {T : Type} `{Managed T} (k : nat) :
  forall (node : T) (h : nat),
    ref node <= 0 ->
    LONG_MIN < ref node - Z.of_nat k ->
    exists w node',
      run (repeat Drop k) (mkCell (Some node) h) = Done w /\
      target w = Some node' /\
      ref node' = ref node - Z.of_nat k.
Proof.
  induction k as [| k IH]; intros node h Hle Hmin.
  - exists (mkCell (Some node) h), node. simpl. repeat split. lia.
  - cbn [repeat]. rewrite run_Drop, release_Done by lia.
    destruct (decide (ref node - 1 = 0)) as [Hz | Hnz]; [lia |].
    cbn [mbind outcome_bind].
    destruct (IH (set_ref (ref node - 1) node) (Nat.pred h))
      as (w & node' & Hrun & Htarget & Href).
    + rewrite ref_set_ref. lia.
    + rewrite ref_set_ref. lia.
    + exists w, node'. split; [exact Hrun |]. split; [exact Htarget |].
      rewrite Href, ref_set_ref. lia.
Qed.

(** X1: [release] deletes the node exactly when its count is 1 before the
    call; a node whose count is not positive (one that no handle has
    acquired) is still there after any number of releases, its count
    further below zero each time. *)
Theorem release_frees_at_one {T : Type} `{Managed T} (node : T) (k h : nat) :
  LONG_MIN < ref node - Z.of_nat k ->
  (release node = Done None <-> ref node = 1) /\
  (ref node <= 0 ->
   exists w node',
     run (repeat Drop k) (mkCell (Some node) h) = Done w /\
     target w = Some node' /\
     ref node' = ref node - Z.of_nat k).
Proof.
  intros Hmin. split.
  - rewrite release_Done by lia.
    destruct (decide (ref node - 1 = 0)) as [Hz | Hnz].
    + split; [intros _; lia | reflexivity].
    + split; [discriminate | intros; lia].
  - intros Hle. apply drops_below_one; assumption.
Qed.

Lemma release_frees_at_one_witness :
  let node := mkIRNode 0 (StmtNodeBase Pass) in
  (release node = Done None <-> ref node = 1) /\
  (ref node <= 0 ->
   exists w node',
     run (repeat Drop 3) (mkCell (Some node) 0) = Done w /\
     target w = Some node' /\
     ref node' = ref node - Z.of_nat 3).
Proof.
  intros node. apply (release_frees_at_one node 3 0). reflexivity.
Defined.

Example release_on_fresh_node :
  release (mkIRNode 0 (StmtNodeBase Pass))
  = Done (Some (mkIRNode (-1) (StmtNodeBase Pass))).
Proof. reflexivity. Qed.

(** ** Balanced handle traffic *)

Section BalancedTraffic.
Context {T : Type} `{Managed T}.
Hypothesis set_ref_ref : forall t : T, set_ref (ref t) t = t.
Hypothesis set_ref_set_ref :
  forall (z z' : Z) (t : T), set_ref z (set_ref z' t) = set_ref z t.

Lemma copies_run (k : nat) :
  forall (node : T) (h : nat),
    ref node + Z.of_nat k <= LONG_MAX ->
    run (repeat Copy k) (mkCell (Some node) h)
    = Done (mkCell (Some (set_ref (ref node + Z.of_nat k) node))
              (h + k)%nat).
Proof.
  induction k as [| k IH]; intros node h Hmax.
  - simpl. rewrite Z.add_0_r, set_ref_ref, Nat.add_0_r. reflexivity.
  - cbn [repeat]. rewrite run_Copy, aquire_Done by lia.
    cbn [mbind outcome_bind].
    rewrite IH by (rewrite ref_set_ref; lia).
    rewrite ref_set_ref, set_ref_set_ref.
    replace (ref node + 1 + Z.of_nat k) with (ref node + Z.of_nat (S k))
      by lia.
    replace (S h + k)%nat with (h + S k)%nat by lia. reflexivity.
Qed.

Lemma drops_run (k : nat) :
  forall (node : T) (h : nat),
    Z.of_nat k < ref node ->
    ref node <= LONG_MAX ->
    run (repeat Drop k) (mkCell (Some node) h)
    = Done (mkCell (Some (set_ref (ref node - Z.of_nat k) node))
              (h - k)%nat).
Proof.
  pose proof LONG_MIN_neg as Hneg.
  induction k as [| k IH]; intros node h Hlt Hmax.
  - simpl. rewrite Z.sub_0_r, set_ref_ref, Nat.sub_0_r. reflexivity.
  - cbn [repeat]. rewrite run_Drop, release_Done by lia.
    destruct (decide (ref node - 1 = 0)) as [Hz | Hnz]; [lia |].
    cbn [mbind outcome_bind].
    rewrite IH by (rewrite ref_set_ref; lia).
    rewrite ref_set_ref, set_ref_set_ref.
    replace (ref node - 1 - Z.of_nat k) with (ref node - Z.of_nat (S k))
      by lia.
    replace (Nat.pred h - k)%nat with (h - S k)%nat by lia. reflexivity.
Qed.

Lemma balanced_run (k : nat) (node : T) (h : nat) :
  1 <= ref node ->
  ref node + Z.of_nat k <= LONG_MAX ->
  run (repeat Copy k ++ repeat Drop k) (mkCell (Some node) h)
  = Done (mkCell (Some node) h).
Proof.
  intros Hpos Hmax. rewrite run_app, copies_run by exact Hmax. simpl.
  rewrite drops_run by (rewrite ref_set_ref; lia).
  rewrite ref_set_ref, set_ref_set_ref.
  replace (ref node + Z.of_nat k - Z.of_nat k) with (ref node) by lia.
  rewrite set_ref_ref.
  replace (h + k - k)%nat with h by lia. reflexivity.
Qed.

End BalancedTraffic.

(** X2: on a node that is held (count at least 1), [k] acquires followed
    by [k] releases give back the very node, count and fields, for
    [IRNode] and for [FuncContent]; on a node that is not held (count 0)
    one acquire followed by one release deletes it. *)
Theorem acquire_release_round_trip (k h : nat) :
  (forall node : IRNode,
     1 <= ref node -> ref node + Z.of_nat k <= LONG_MAX ->
     run (repeat Copy k ++ repeat Drop k) (mkCell (Some node) h)
     = Done (mkCell (Some node) h)) /\
  (forall c : FuncContent.t,
     1 <= ref c -> ref c + Z.of_nat k <= LONG_MAX ->
     run (repeat Copy k ++ repeat Drop k) (mkCell (Some c) h)
     = Done (mkCell (Some c) h)) /\
  (forall node : IRNode,
     ref node = 0 -> (n ← aquire node; release n) = Done None) /\
  (forall c : FuncContent.t,
     ref c = 0 -> (c' ← aquire c; release c') = Done None).
Proof.
  split; [| split; [| split]].
  - intros node. apply balanced_run.
    + intros []. reflexivity.
    + intros z z' []. reflexivity.
  - intros c. apply balanced_run.
    + intros []. reflexivity.
    + intros z z' []. reflexivity.
  - intros node Hz. rewrite aquire_Done by (rewrite Hz; reflexivity).
    cbn [mbind outcome_bind].
    rewrite release_Done by (rewrite ref_set_ref, Hz; reflexivity).
    rewrite ref_set_ref, Hz. reflexivity.
  - intros c Hz. rewrite aquire_Done by (rewrite Hz; reflexivity).
    cbn [mbind outcome_bind].
    rewrite release_Done by (rewrite ref_set_ref, Hz; reflexivity).
    rewrite ref_set_ref, Hz. reflexivity.
Qed.

Lemma acquire_release_round_trip_witness :
  let c := FuncContent.mk 2 "sin" [] [] Environment_default Stmt_undefined
             Storage_default 2 in
  run (repeat Copy 3 ++ repeat Drop 3) (mkCell (Some c) 2)
  = Done (mkCell (Some c) 2).
Proof.
  intros c.
  destruct (acquire_release_round_trip 3 2) as (_ & Hcontent & _ & _).
  apply Hcontent.
  - simpl. lia.
  - vm_compute. discriminate.
Defined.

(** ** Handle traffic touches the count only *)

Section TrafficFrame.
Context {T A : Type} `{Managed T}.
Variable frame : T -> A.
Hypothesis frame_set_ref : forall (z : Z) (t : T), frame (set_ref z t) = frame t.

Lemma step_frame (ev : event) (w w' : cell T) :
  step ev w = Done w' ->
  forall t', target w' = Some t' ->
  exists t, target w = Some t /\ frame t' = frame t.
Proof.
  unfold step. destruct (target w) as [t |]; [| discriminate].
  destruct ev.
  - unfold aquire. destruct (decide (ref t < LONG_MAX)); [| discriminate].
    cbn [mbind outcome_bind]. intros [= <-] t' [= <-].
    exists t. split; [reflexivity | apply frame_set_ref].
  - unfold release. destruct (decide (LONG_MIN < ref t)); [| discriminate].
    cbv zeta. destruct (decide _); cbn [mbind outcome_bind];
      intros [= <-] t'; [discriminate |].
    intros [= <-]. exists t. split; [reflexivity | apply frame_set_ref].
Qed.

Lemma run_frame (evs : list event) :
  forall (w w' : cell T),
    run evs w = Done w' ->
    forall t', target w' = Some t' ->
    exists t, target w = Some t /\ frame t' = frame t.
Proof.
  induction evs as [| ev evs IH]; intros w w' Hrun t' Ht'.
  - injection Hrun as <-. exists t'. split; [exact Ht' | reflexivity].
  - simpl in Hrun. destruct (step ev w) as [w1 | |] eqn:Hstep;
      try discriminate.
    cbn [mbind outcome_bind] in Hrun.
    destruct (IH w1 w' Hrun t' Ht') as (t1 & Ht1 & Hf1).
    destruct (step_frame ev w w1 Hstep t1 Ht1) as (t & Ht & Hf).
    exists t. split; [exact Ht | congruence].
Qed.

End TrafficFrame.

(** X3: whatever handles are copied and dropped on a node, as long as the
    node is there its fields other than the count are what they were:
    the node body of an [IRNode]; the kind, name, arguments, results,
    environment, body and storage of a [FuncContent]. *)
Theorem handle_traffic_frame (evs : list event) (h : nat) :
  (forall (node node' : IRNode) (w : cell IRNode),
     run evs (mkCell (Some node) h) = Done w ->
     target w = Some node' ->
     base node' = base node) /\
  (forall (c c' : FuncContent.t) (w : cell FuncContent.t),
     run evs (mkCell (Some c) h) = Done w ->
     target w = Some c' ->
     c' = FuncContent.set_ref (FuncContent.ref c') c).
Proof.
  split.
  - intros node node' w Hrun Hw.
    assert (Hframe : forall (z : Z) (t : IRNode), base (set_ref z t) = base t)
      by reflexivity.
    destruct (run_frame base Hframe evs _ _ Hrun node' Hw)
      as (t & [= <-] & Hbase).
    exact Hbase.
  - intros c c' w Hrun Hw.
    assert (Hframe : forall (z : Z) (t : FuncContent.t),
               FuncContent.set_ref 0 (set_ref z t) = FuncContent.set_ref 0 t)
      by reflexivity.
    destruct (run_frame (FuncContent.set_ref 0) Hframe evs _ _ Hrun c' Hw)
      as (t & [= <-] & Hrest).
    destruct c, c'. injection Hrest as -> -> -> -> -> -> ->. reflexivity.
Qed.

Lemma handle_traffic_frame_witness :
  let c := FuncContent.mk 2 "cos" [] [] Environment_default Stmt_undefined
             Storage_default 1 in
  let c' := FuncContent.mk 2 "cos" [] [] Environment_default Stmt_undefined
              Storage_default 2 in
  c' = FuncContent.set_ref (FuncContent.ref c') c.
Proof.
  intros c c'.
  destruct (handle_traffic_frame [Copy; Copy; Drop] 1) as [_ Hcontent].
  apply (Hcontent c c' (mkCell (Some c') 2)); reflexivity.
Defined.

(** ** Downcasts, the other way round *)

Lemma isa_true_inv (K : NodeKind.t) (h : heap) (ptr : option addr) :
  (q ← dynamic_cast K h ptr; Done (negb (isnull q))) = Done true ->
  exists p node, ptr = Some p /\ h !! p = Some node /\ IRNode_kind node = K.
Proof.
  destruct ptr as [p |]; [| discriminate].
  unfold dynamic_cast, deref.
  destruct (h !! p) as [node |] eqn:Hp; [| discriminate].
  cbn [mbind outcome_bind].
  destruct (decide (IRNode_kind node = K)) as [HK | HK]; [| discriminate].
  intros _. exists p, node. split; [reflexivity |]. split; [exact Hp | exact HK].
Qed.

Lemma Expr_isa_true_inv (K : NodeKind.t) (h : heap) (e : Expr) :
  Expr_isa K h e = Done true ->
  exists p node,
    Expr_ptr e = Some p /\ h !! p = Some node /\ IRNode_kind node = K.
Proof.
  unfold Expr_isa. destruct (Expr_defined e); [| discriminate].
  apply isa_true_inv.
Qed.

Lemma Stmt_isa_true_inv (K : NodeKind.t) (h : heap) (s : Stmt) :
  Stmt_isa K h s = Done true ->
  exists p node,
    Stmt_ptr s = Some p /\ h !! p = Some node /\ IRNode_kind node = K.
Proof.
  unfold Stmt_isa. destruct (Stmt_defined s); [| discriminate].
  apply isa_true_inv.
Qed.

Lemma Expr_to_Done_inv (K : NodeKind.t) (h : heap) (e : Expr)
    (q : option addr) :
  Expr_to K h e = Done q -> Expr_isa K h e = Done true /\ q = Expr_ptr e.
Proof.
  unfold Expr_to. destruct (Expr_isa K h e) as [[|] | |]; try discriminate.
  cbn. intros [= <-]. auto.
Qed.

Lemma Stmt_to_Done_inv (K : NodeKind.t) (h : heap) (s : Stmt)
    (q : option addr) :
  Stmt_to K h s = Done q -> Stmt_isa K h s = Done true /\ q = Stmt_ptr s.
Proof.
  unfold Stmt_to. destruct (Stmt_isa K h s) as [[|] | |]; try discriminate.
  cbn. intros [= <-]. auto.
Qed.

(** X4: when [to<K>] returns, what it returns is the handle's own pointer,
    not null, to a live node whose class is K; and [isa] holds for no
    class but K.  The same for expression and statement handles. *)
Theorem to_returns_node_of_class (h : heap) (K : NodeKind.t) :
  (forall (e : Expr) (q : option addr),
     Expr_to K h e = Done q ->
     exists p node,
       q = Some p /\ Expr_ptr e = Some p /\ h !! p = Some node /\
       IRNode_kind node = K /\
       forall J, Expr_isa J h e = Done true -> J = K) /\
  (forall (s : Stmt) (q : option addr),
     Stmt_to K h s = Done q ->
     exists p node,
       q = Some p /\ Stmt_ptr s = Some p /\ h !! p = Some node /\
       IRNode_kind node = K /\
       forall J, Stmt_isa J h s = Done true -> J = K).
Proof.
  split.
  - intros e q Hto. apply Expr_to_Done_inv in Hto as [Hisa ->].
    destruct (Expr_isa_true_inv K h e Hisa) as (p & node & Hp & Hnode & HK).
    exists p, node. repeat split; try assumption.
    intros J HJ.
    destruct (Expr_isa_true_inv J h e HJ) as (p' & node' & Hp' & Hnode' & HJ').
    congruence.
  - intros s q Hto. apply Stmt_to_Done_inv in Hto as [Hisa ->].
    destruct (Stmt_isa_true_inv K h s Hisa) as (p & node & Hp & Hnode & HK).
    exists p, node. repeat split; try assumption.
    intros J HJ.
    destruct (Stmt_isa_true_inv J h s HJ) as (p' & node' & Hp' & Hnode' & HJ').
    congruence.
Qed.

Lemma to_returns_node_of_class_witness :
  exists p node,
    Some 5%positive = Some p /\
    Expr_ptr (Contraction.at_ 5) = Some p /\
    Contraction.store !! p = Some node /\
    IRNode_kind node = NodeKind.Mul /\
    forall J, Expr_isa J Contraction.store (Contraction.at_ 5) = Done true ->
              J = NodeKind.Mul.
Proof.
  destruct (to_returns_node_of_class Contraction.store NodeKind.Mul)
    as [Hexpr _].
  apply (Hexpr (Contraction.at_ 5) (Some 5%positive)). reflexivity.
Defined.

(** X5: on an undefined handle [to<K>] stops at its invariant check, for
    every class K and whatever the store holds: the null pointer is
    neither read nor returned. *)
Theorem to_undefined (h : heap) (K : NodeKind.t) (e : Expr) (s : Stmt) :
  Expr_defined e = false ->
  Stmt_defined s = false ->
  Expr_to K h e = InvariantFailure "Wrong Expr type" /\
  Stmt_to K h s = InvariantFailure "Wrong Expr type ".
Proof.
  intros He Hs. unfold Expr_to, Stmt_to, Expr_isa, Stmt_isa.
  rewrite He, Hs. split; reflexivity.
Qed.

Lemma to_undefined_witness :
  Expr_to NodeKind.Add Contraction.store Expr_undefined
    = InvariantFailure "Wrong Expr type" /\
  Stmt_to NodeKind.Block Contraction.store Stmt_undefined
    = InvariantFailure "Wrong Expr type ".
Proof.
  split.
  - apply (to_undefined Contraction.store NodeKind.Add Expr_undefined
             Stmt_undefined); reflexivity.
  - apply (to_undefined Contraction.store NodeKind.Block Expr_undefined
             Stmt_undefined); reflexivity.
Defined.

(** ** Double dispatch *)

Lemma base_argument_own (k : NodeKind.t) : base_argument k = k.
Proof. destruct k; reflexivity. Qed.

(** X6: [accept] through a defined handle on a live node runs the visitor
    callback of the node's own class, on the node's address, and nothing
    else: every struct hands its own name to its base class.  That class
    is the one [isa] answers true for. *)
Theorem accept_dispatches_on_class {St : Type} (v : IRVisitorStrict St)
    (h : heap) (p : addr) (node : IRNode) (s : St) :
  h !! p = Some node ->
  Expr_accept v h (mkExpr (Some p)) s = visit v (IRNode_kind node) p s /\
  Stmt_accept v h (mkStmt (Some p)) s = visit v (IRNode_kind node) p s /\
  (forall J, Expr_isa J h (mkExpr (Some p)) = Done true ->
             Expr_accept v h (mkExpr (Some p)) s = visit v J p s) /\
  (forall J, Stmt_isa J h (mkStmt (Some p)) = Done true ->
             Stmt_accept v h (mkStmt (Some p)) s = visit v J p s).
Proof.
  intros Hp.
  assert (He : Expr_accept v h (mkExpr (Some p)) s
               = visit v (IRNode_kind node) p s).
  { unfold Expr_accept, deref, IRNode_accept. cbn [Expr_ptr]. rewrite Hp.
    cbn [mbind outcome_bind]. rewrite base_argument_own. reflexivity. }
  assert (Hs : Stmt_accept v h (mkStmt (Some p)) s
               = visit v (IRNode_kind node) p s).
  { unfold Stmt_accept, deref, IRNode_accept. cbn [Stmt_ptr]. rewrite Hp.
    cbn [mbind outcome_bind]. rewrite base_argument_own. reflexivity. }
  split; [exact He |]. split; [exact Hs |]. split.
  - intros J HJ. rewrite (Expr_isa_kind J h p node Hp) in HJ.
    injection HJ as HJ. apply bool_decide_eq_true in HJ. rewrite He, HJ.
    reflexivity.
  - intros J HJ. rewrite (Stmt_isa_kind J h p node Hp) in HJ.
    injection HJ as HJ. apply bool_decide_eq_true in HJ. rewrite Hs, HJ.
    reflexivity.
Qed.

Lemma accept_dispatches_on_class_witness :
  let v := mkVisitor (list NodeKind.t)
             (fun E _ seen => Done (E :: seen)) (fun _ seen => Done seen) in
  let node := mkIRNode 1 (ExprNodeBase Contraction.scalar
                            (Mul (Contraction.at_ 3) (Contraction.at_ 4))) in
  Expr_accept v Contraction.store (mkExpr (Some 5%positive)) []
    = visit v (IRNode_kind node) 5%positive [] /\
  Stmt_accept v Contraction.store (mkStmt (Some 5%positive)) []
    = visit v (IRNode_kind node) 5%positive [] /\
  (forall J,
     Expr_isa J Contraction.store (mkExpr (Some 5%positive)) = Done true ->
     Expr_accept v Contraction.store (mkExpr (Some 5%positive)) []
       = visit v J 5%positive []) /\
  (forall J,
     Stmt_isa J Contraction.store (mkStmt (Some 5%positive)) = Done true ->
     Stmt_accept v Contraction.store (mkStmt (Some 5%positive)) []
       = visit v J 5%positive []).
Proof.
  intros v node.
  apply (accept_dispatches_on_class v Contraction.store 5%positive node []).
  reflexivity.
Defined.

Example accept_Mul_records_Mul :
  Expr_accept
    (mkVisitor (list NodeKind.t)
       (fun E _ seen => Done (E :: seen)) (fun _ seen => Done seen))
    Contraction.store (Contraction.at_ 5) []
  = Done [NodeKind.Mul].
Proof. reflexivity. Qed.

(** X7: [accept] through an undefined expression or statement handle is
    a call through the null pointer, undefined behaviour whatever the
    visitor, with no invariant check before it; [Func::accept] does not
    read the pointer and hands even an undefined [Func] to the visitor. *)
Theorem accept_undefined {St : Type} (v : IRVisitorStrict St) (h : heap)
    (e : Expr) (s0 : Stmt) (f : Func) (s : St) :
  Expr_defined e = false ->
  Stmt_defined s0 = false ->
  Func_defined f = false ->
  Expr_accept v h e s = UndefinedBehaviour /\
  Stmt_accept v h s0 s = UndefinedBehaviour /\
  Func_accept v f s = visit_Func v Func_undefined s.
Proof.
  intros He Hs Hf. unfold Expr_accept, Stmt_accept, Func_accept.
  destruct e as [[p |]]; [discriminate |].
  destruct s0 as [[p |]]; [discriminate |].
  destruct f as [[p |]]; [discriminate |].
  repeat split.
Qed.

Lemma accept_undefined_witness :
  let v := mkVisitor nat (fun _ _ n => Done (S n)) (fun _ n => Done (S n)) in
  Expr_accept v ∅ Expr_undefined 0%nat = UndefinedBehaviour /\
  Stmt_accept v ∅ Stmt_undefined 0%nat = UndefinedBehaviour /\
  Func_accept v Func_undefined 0%nat = visit_Func v Func_undefined 0%nat.
Proof.
  intros v.
  apply (accept_undefined v ∅ Expr_undefined Stmt_undefined Func_undefined
           0%nat); reflexivity.
Defined.

(** ** [Func] accessors *)

(** X8: no accessor of [Func] tests the handle: through an undefined
    [Func] each getter and each setter reads the null pointer, undefined
    behaviour, and none stops at an invariant check. *)
Theorem Func_accessors_undefined (fs : funcs) (f : Func) (env : Environment)
    (storage : Storage) :
  Func_defined f = false ->
  getName fs f = UndefinedBehaviour /\
  getArguments fs f = UndefinedBehaviour /\
  getResults fs f = UndefinedBehaviour /\
  getBody fs f = UndefinedBehaviour /\
  getKind fs f = UndefinedBehaviour /\
  getEnvironment fs f = UndefinedBehaviour /\
  getStorage fs f = UndefinedBehaviour /\
  setEnvironment fs f env = UndefinedBehaviour /\
  setStorage fs f storage = UndefinedBehaviour.
Proof.
  intros Hf. destruct f as [[p |]]; [discriminate |].
  repeat split.
Qed.

Lemma Func_accessors_undefined_witness :
  getName ∅ Func_undefined = UndefinedBehaviour /\
  getArguments ∅ Func_undefined = UndefinedBehaviour /\
  getResults ∅ Func_undefined = UndefinedBehaviour /\
  getBody ∅ Func_undefined = UndefinedBehaviour /\
  getKind ∅ Func_undefined = UndefinedBehaviour /\
  getEnvironment ∅ Func_undefined = UndefinedBehaviour /\
  getStorage ∅ Func_undefined = UndefinedBehaviour /\
  setEnvironment ∅ Func_undefined Environment_default = UndefinedBehaviour /\
  setStorage ∅ Func_undefined Storage_default = UndefinedBehaviour.
Proof.
  apply (Func_accessors_undefined ∅ Func_undefined Environment_default
           Storage_default).
  reflexivity.
Defined.

Lemma setEnvironment_unfold (fs : funcs) (f : Func) (env : Environment) :
  setEnvironment fs f env =
    match Func_ptr f with
    | Some p =>
        match fs !! p with
        | Some c => Done (<[p := FuncContent_set_env env c]> fs)
        | None => UndefinedBehaviour
        end
    | None => UndefinedBehaviour
    end.
Proof.
  unfold setEnvironment, Func_deref. destruct (Func_ptr f) as [p |];
    [| reflexivity].
  destruct (fs !! p); reflexivity.
Qed.

Lemma setStorage_unfold (fs : funcs) (f : Func) (storage : Storage) :
  setStorage fs f storage =
    match Func_ptr f with
    | Some p =>
        match fs !! p with
        | Some c => Done (<[p := FuncContent_set_storage storage c]> fs)
        | None => UndefinedBehaviour
        end
    | None => UndefinedBehaviour
    end.
Proof.
  unfold setStorage, Func_deref. destruct (Func_ptr f) as [p |];
    [| reflexivity].
  destruct (fs !! p); reflexivity.
Qed.

Lemma setters_commute (fs : funcs) (f g : Func) (env : Environment)
    (storage : Storage) :
  (fs1 ← setEnvironment fs f env; setStorage fs1 g storage)
  = (fs1 ← setStorage fs g storage; setEnvironment fs1 f env).
Proof.
  rewrite (setEnvironment_unfold fs), (setStorage_unfold fs).
  destruct (Func_ptr f) as [p |] eqn:Hf, (Func_ptr g) as [q |] eqn:Hg;
    cbn [mbind outcome_bind].
  - destruct (fs !! p) as [c |] eqn:Hp, (fs !! q) as [d |] eqn:Hq;
      cbn [mbind outcome_bind];
      rewrite ?setEnvironment_unfold, ?setStorage_unfold, ?Hf, ?Hg.
    + destruct (decide (p = q)) as [<- | Hne].
      * rewrite !lookup_insert_eq, !insert_insert_eq.
        assert (d = c) as -> by congruence. reflexivity.
      * rewrite !lookup_insert_ne by congruence. rewrite Hp, Hq.
        rewrite insert_insert_ne by congruence. reflexivity.
    + assert (p <> q) by congruence.
      rewrite lookup_insert_ne by congruence. rewrite Hq. reflexivity.
    + assert (p <> q) by congruence.
      rewrite lookup_insert_ne by congruence. rewrite Hp. reflexivity.
    + reflexivity.
  - destruct (fs !! p); cbn [mbind outcome_bind];
      rewrite ?setStorage_unfold, ?Hg; reflexivity.
  - destruct (fs !! q); cbn [mbind outcome_bind];
      rewrite ?setEnvironment_unfold, ?Hf; reflexivity.
  - reflexivity.
Qed.

(** X9: the two setters commute, through whatever handles they are
    called, on the same content or on two; and of two calls of one setter
    through the same handle the later one wins.  This holds with no
    condition on the handles: if a call in one order is undefined
    behaviour, so is the other order. *)
Theorem Func_setters_compose (fs : funcs) (f g : Func)
    (env env' : Environment) (storage storage' : Storage) :
  (fs1 ← setEnvironment fs f env; setStorage fs1 g storage)
  = (fs1 ← setStorage fs g storage; setEnvironment fs1 f env) /\
  (fs1 ← setEnvironment fs f env; setEnvironment fs1 f env')
  = setEnvironment fs f env' /\
  (fs1 ← setStorage fs f storage; setStorage fs1 f storage')
  = setStorage fs f storage'.
Proof.
  split; [apply setters_commute |]. split.
  - rewrite !(setEnvironment_unfold fs).
    destruct (Func_ptr f) as [p |] eqn:Hf; [| reflexivity].
    destruct (fs !! p) as [c |] eqn:Hp; [| reflexivity].
    cbn [mbind outcome_bind]. rewrite setEnvironment_unfold, Hf.
    rewrite lookup_insert_eq, insert_insert_eq. reflexivity.
  - rewrite !(setStorage_unfold fs).
    destruct (Func_ptr f) as [p |] eqn:Hf; [| reflexivity].
    destruct (fs !! p) as [c |] eqn:Hp; [| reflexivity].
    cbn [mbind outcome_bind]. rewrite setStorage_unfold, Hf.
    rewrite lookup_insert_eq, insert_insert_eq. reflexivity.
Qed.

(** X10: [getKind] decodes the stored [int] back to the enumerator it
    came from: a content whose [kind] field holds the value of an
    enumerator reads back as that enumerator, and when [getKind] returns
    an enumerator the field holds exactly its value. *)
Theorem getKind_round_trip (fs : funcs) (f : Func) (p : addr)
    (c : FuncContent.t) (k : Func.Kind.t) :
  Func_ptr f = Some p ->
  fs !! p = Some c ->
  (getKind fs f = Done k <-> FuncContent.kind c = Func.Kind.to_int k).
Proof.
  intros Hf Hp. unfold getKind, Func_deref. rewrite Hf, Hp.
  cbn [mbind outcome_bind]. unfold Func.Kind.of_int.
  repeat (destruct (decide _) as [-> | ?]).
  - destruct k; split; intros; congruence || discriminate || reflexivity.
  - destruct k; split; intros; congruence || discriminate || reflexivity.
  - destruct k; split; intros; congruence || discriminate || reflexivity.
  - split; [discriminate |]. destruct k; simpl; intros; congruence.
Qed.

Lemma getKind_round_trip_witness :
  let c := FuncContent.mk 2 "tan" [] [] Environment_default Stmt_undefined
             Storage_default 1 in
  getKind {[ 7%positive := c ]} (mkFunc (Some 7%positive))
    = Done Func.Kind.Intrinsic
  <-> FuncContent.kind c = Func.Kind.to_int Func.Kind.Intrinsic.
Proof.
  intros c.
  apply (getKind_round_trip {[ 7%positive := c ]} (mkFunc (Some 7%positive))
           7%positive c Func.Kind.Intrinsic); reflexivity.
Defined.

(** ** [ForDomain]: what an [IndexSet] domain carries *)

(** X11: a [ForDomain] of kind [IndexSet], whichever constructor built it,
    has an undefined [set] and a default [var]; and the constructor
    taking (set, var, kind) accepts [NeighborsOf], leaving the index set
    default-constructed. *)
Theorem ForDomain_IndexSet_has_no_set :
  (forall d,
     constructed d ->
     ForDomain.kind d = ForDomain.Kind.IndexSet ->
     ForDomain.set d = Expr_undefined /\ ForDomain.var d = Var_default) /\
  (forall set var,
     ForDomain_ofSet set var ForDomain.Kind.NeighborsOf
     = Done (ForDomain.mk ForDomain.Kind.NeighborsOf IndexSet_default
               set var)).
Proof.
  split; [| reflexivity].
  intros d Hc Hk. destruct Hc as [kind d Hd | indexSet d Hd
                                 | set var kind d Hd | set var kind indexSet d Hd].
  - injection Hd as <-. split; reflexivity.
  - injection Hd as <-. split; reflexivity.
  - rewrite ForDomain_ofSet_outcome in Hd.
    destruct (decide (kind = ForDomain.Kind.IndexSet)); [discriminate |].
    injection Hd as <-. simpl in Hk. contradiction.
  - rewrite ForDomain_ofNeighbors_outcome in Hd.
    destruct (decide (kind = ForDomain.Kind.NeighborsOf)) as [-> |];
      [| discriminate].
    injection Hd as <-. discriminate.
Qed.

Lemma ForDomain_IndexSet_has_no_set_witness :
  let d := ForDomain.mk ForDomain.Kind.IndexSet (mkIndexSet 7)
             Expr_undefined Var_default in
  ForDomain.set d = Expr_undefined /\ ForDomain.var d = Var_default.
Proof.
  intros d. destruct ForDomain_IndexSet_has_no_set as [Hkind _].
  apply Hkind.
  - apply (constructed_ofIndexSet (mkIndexSet 7)). reflexivity.
  - reflexivity.
Defined.

(** ** When [type()] is safe *)

Lemma IRNode_kind_is_ExprNode (node : IRNode) :
  is_ExprNode (IRNode_kind node) = true <->
  exists type n, base node = ExprNodeBase type n.
Proof.
  unfold IRNode_kind. destruct (base node) as [type n | n].
  - split; [eauto |]. intros _. destruct n; reflexivity.
  - split; [destruct n; discriminate |]. intros (type & n' & Hb).
    discriminate.
Qed.

(** X12: [type()] returns exactly when the handle is defined and points to
    a live expression node, and then it returns the type stored on that
    node; in every other case it is undefined behaviour, never an
    invariant failure.  In particular it returns after [isa<E>] has
    answered true for a class [E] of expressions. *)
Theorem Expr_type_defined_iff (h : heap) (e : Expr) :
  (forall t,
     Expr_type h e = Done t <->
     exists p r n,
       Expr_ptr e = Some p /\
       h !! p = Some (mkIRNode r (ExprNodeBase t n))) /\
  failed_invariant (Expr_type h e) = false /\
  (forall E,
     is_ExprNode E = true ->
     Expr_isa E h e = Done true ->
     exists t, Expr_type h e = Done t).
Proof.
  split; [| split].
  - intros t. unfold Expr_type, deref.
    destruct (Expr_ptr e) as [p |]; cbn [mbind outcome_bind].
    + destruct (h !! p) as [[r [t' n | n]] |] eqn:Hnode; cbn.
      * split.
        -- intros [= <-]. exists p, r, n. split; [reflexivity | exact Hnode].
        -- intros (p' & r' & n' & [= <-] & Hn). congruence.
      * split; [discriminate |].
        intros (p' & r' & n' & [= <-] & Hn). congruence.
      * split; [discriminate |].
        intros (p' & r' & n' & [= <-] & Hn). congruence.
    + split; [discriminate |]. intros (p' & r' & n' & Hp & _). discriminate.
  - unfold Expr_type, deref.
    destruct (Expr_ptr e) as [p |]; [| reflexivity].
    destruct (h !! p) as [[r [t' n | n]] |]; reflexivity.
  - intros E HE Hisa.
    destruct (Expr_isa_true_inv E h e Hisa) as (p & node & Hp & Hnode & HK).
    rewrite <- HK in HE. apply IRNode_kind_is_ExprNode in HE as (t & n & Hb).
    exists t. unfold Expr_type, deref. rewrite Hp, Hnode.
    cbn [mbind outcome_bind]. rewrite Hb. reflexivity.
Qed.

Lemma Expr_type_defined_iff_witness :
  exists t, Expr_type Contraction.store (Contraction.at_ 3) = Done t.
Proof.
  destruct (Expr_type_defined_iff Contraction.store (Contraction.at_ 3))
    as (_ & _ & Hguard).
  apply (Hguard NodeKind.IndexedTensor); reflexivity.
Defined.
